(** * cascadia: the selector combinators of [selector.go]

    A shallow embedding of the matcher algebra, of [Compile] and of
    [MatchAll], together with the properties stated about them.

    Conventions.
    - A Go [string] is a sequence of bytes: [String.string] (a list of
      8-bit [ascii]).
    - A Go [int] is a 64-bit two's complement integer: a [Z] together with
      the wrap-around of every arithmetic operation ([GoInt]).
    - A pointer to an [html.Node] is an address into a store that holds
      one node record per address; the nullable [Parent] pointer is an
      [option], and the pointers of a [Child] slice are not [nil].
      Pointer comparison [c == n] is comparison of addresses.
    - A [Selector] is a function of the store and of the node's address. *)

From Stdlib Require Import ZArith List String Ascii Bool Arith Lia.
From Stdlib Require Import Permutation.
From Equations Require Import Equations.
Import ListNotations.

Local Open Scope Z_scope.

(* ===================================================================== *)
(** ** Go's [int] *)
(* ===================================================================== *)

Module GoInt.

Definition min_int : Z := - 2 ^ 63.
Definition max_int : Z := 2 ^ 63 - 1.

(** The value a 64-bit register holds after an operation whose
    mathematical result is [z]. *)
Definition wrap (z : Z) : Z := (z + 2 ^ 63) mod 2 ^ 64 - 2 ^ 63.

Definition in_range (z : Z) : Prop := min_int <= z <= max_int.

Definition add (x y : Z) : Z := wrap (x + y).
Definition sub (x y : Z) : Z := wrap (x - y).

(** [x / y] and [x % y] truncate towards zero; the one overflowing
    quotient, [min_int / -1], wraps to [min_int] with remainder [0]. *)
Definition quo (x y : Z) : Z := wrap (Z.quot x y).
Definition rem (x y : Z) : Z := Z.rem x y.

(** [len] of a string or slice. *)
Definition len {A : Type} (l : list A) : Z := Z.of_nat (List.length l).
Definition strlen (s : string) : Z := Z.of_nat (String.length s).

End GoInt.

(* ===================================================================== *)
(** ** The document tree ([html.Node]) *)
(* ===================================================================== *)

Inductive NodeType : Set :=
| ErrorNode | TextNode | DocumentNode | ElementNode | CommentNode | DoctypeNode.

Definition NodeType_eqb (x y : NodeType) : bool :=
  match x, y with
  | ErrorNode, ErrorNode | TextNode, TextNode | DocumentNode, DocumentNode
  | ElementNode, ElementNode | CommentNode, CommentNode
  | DoctypeNode, DoctypeNode => true
  | _, _ => false
  end.

Record Attribute : Set := mkAttribute { Key : string; Val : string }.

(** Addresses of nodes.  Every address holds a node (Go has no dangling
    pointer); [nil] only occurs as a [Parent]. *)
Definition ptr : Set := nat.

Record Node : Set := mkNode {
  Parent : option ptr;
  Child  : list ptr;
  Type_  : NodeType;
  Data   : string;
  Attr   : list Attribute
}.

Definition store : Type := ptr -> Node.

(** A [Selector] is a function which tells whether a node matches or not. *)
Definition Selector : Type := store -> ptr -> bool.

Definition matches (s : Selector) (st : store) (n : ptr) : Prop :=
  s st n = true.

(* ===================================================================== *)
(** ** [toLowerASCII] *)
(* ===================================================================== *)

Definition byte_le (c d : ascii) : bool := (N_of_ascii c <=? N_of_ascii d)%N.

(** ['A' <= c && c <= 'Z'] *)
Definition is_upper (c : ascii) : bool :=
  byte_le "A"%char c && byte_le c "Z"%char.

(** [c + ('a' - 'A')] on a byte. *)
Definition add_case_offset (c : ascii) : ascii :=
  ascii_of_N ((N_of_ascii c + (N_of_ascii "a" - N_of_ascii "A")) mod 256)%N.

(** [b[i] = v]; the source only writes inside the buffer. *)
Fixpoint set_byte (b : list ascii) (i : nat) (v : ascii) : list ascii :=
  match b, i with
  | [], _ => []
  | _ :: b', O => v :: b'
  | c :: b', S i' => c :: set_byte b' i' v
  end.

(** One iteration of the loop at index [i]: the buffer [b] is [nil]
    ([None]) until the first capital is met, and is then a copy of [s]. *)
Definition toLower_step (s : list ascii) (b : option (list ascii)) (i : nat)
  : option (list ascii) :=
  match nth_error s i with
  | Some c =>
      if is_upper c then
        let b' := match b with None => s | Some b0 => b0 end in
        Some (set_byte b' i (add_case_offset c))
      else b
  | None => b
  end.

Definition toLowerASCII (s : string) : string :=
  let bytes := list_ascii_of_string s in
  match fold_left (toLower_step bytes) (seq 0 (List.length bytes)) None with
  | None => s
  | Some b => string_of_list_ascii b
  end.

(** The bytes the loop has produced so far: [s] itself as long as the
    buffer is [nil]. *)
Definition buffer_or (s : list ascii) (b : option (list ascii)) : list ascii :=
  match b with None => s | Some b0 => b0 end.

(** What the loop computes, byte by byte. *)
Definition lower_byte (c : ascii) : ascii :=
  if is_upper c then add_case_offset c else c.

Fixpoint map_string (f : ascii -> ascii) (s : string) : string :=
  match s with
  | EmptyString => EmptyString
  | String c s' => String (f c) (map_string f s')
  end.

(* ===================================================================== *)
(** ** Type and attribute selectors *)
(* ===================================================================== *)

Definition typeSelector (tag : string) : Selector :=
  let tag := toLowerASCII tag in
  fun st n =>
    NodeType_eqb (Type_ (st n)) ElementNode && String.eqb (Data (st n)) tag.

(** The [for _, a := range n.Attr] loop with its early [return true]. *)
Fixpoint attr_loop (key : string) (f : string -> bool) (attrs : list Attribute)
  : bool :=
  match attrs with
  | [] => false
  | a :: rest =>
      if String.eqb (Key a) key && f (Val a) then true
      else attr_loop key f rest
  end.

Definition attributeSelector (key : string) (f : string -> bool) : Selector :=
  let key := toLowerASCII key in
  fun st n =>
    if negb (NodeType_eqb (Type_ (st n)) ElementNode) then false
    else attr_loop key f (Attr (st n)).

Definition attributeExistsSelector (key : string) : Selector :=
  attributeSelector key (fun _ => true).

Definition attributeEqualsSelector (key val : string) : Selector :=
  attributeSelector key (fun s => String.eqb s val).

(** The separators of [strings.IndexAny(s, " \t\r\n\f")]. *)
Definition separators : string :=
  String " " (String "009" (String "013" (String "010" (String "012" ""))))%char.

Fixpoint mem_byte (c : ascii) (chars : string) : bool :=
  match chars with
  | EmptyString => false
  | String d chars' => Ascii.eqb c d || mem_byte c chars'
  end.

(** [strings.IndexAny]: the index of the first byte of [s] that is one of
    [chars], or [-1].  (All the separators are ASCII, so bytes and code
    points coincide.) *)
Fixpoint IndexAny (s chars : string) : Z :=
  match s with
  | EmptyString => -1
  | String c s' =>
      if mem_byte c chars then 0
      else let i := IndexAny s' chars in
           if i =? -1 then -1 else i + 1
  end.

(** [s[:i]] and [s[i:]]; every index the source slices at is within [s]. *)
Fixpoint take_bytes (i : nat) (s : string) : string :=
  match i, s with
  | S i', String c s' => String c (take_bytes i' s')
  | _, _ => EmptyString
  end.

Fixpoint drop_bytes (i : nat) (s : string) : string :=
  match i, s with
  | S i', String _ s' => drop_bytes i' s'
  | _, _ => s
  end.

Definition slice_to (s : string) (i : Z) : string := take_bytes (Z.to_nat i) s.
Definition slice_from (s : string) (i : Z) : string := drop_bytes (Z.to_nat i) s.

(** [s[i]] *)
Definition byte_at (s : string) (i : Z) : option ascii :=
  String.get (Z.to_nat i) s.

Definition inspect {A : Type} (a : A) : {b : A | a = b} := exist _ a eq_refl.

(** The [for s != ""] loop of [attributeIncludesSelector]: each iteration
    cuts [s] after its first separator, so [s] gets shorter. *)
Equations? includes_loop (val s : string) : bool by wf (String.length s) lt :=
  includes_loop val s with inspect (String.eqb s "") := {
    | exist _ true _ := false
    | exist _ false _ with inspect (IndexAny s separators) := {
      | exist _ i Hi with inspect (i =? -1) := {
        | exist _ true _ := String.eqb s val
        | exist _ false Hfound :=
            if String.eqb (slice_to s i) val then true
            else includes_loop val (slice_from s (i + 1)) } } }.
Proof.
  clear includes_loop e. unfold slice_from.
  revert Hfound. generalize separators as seps.
  induction s as [|c s IH]; intros seps; simpl.
  - discriminate.
  - destruct (mem_byte c seps).
    + intros _. simpl. destruct s; simpl; lia.
    + destruct (IndexAny s seps =? -1) eqn:E; [discriminate|].
      intros _.
      assert (Hnn : 0 <= IndexAny s seps).
      { clear -E. induction s as [|d s IHs]; simpl in *; [discriminate|].
        destruct (mem_byte d seps); [lia|].
        destruct (IndexAny s seps =? -1) eqn:E'; [discriminate|].
        specialize (IHs eq_refl). lia. }
      replace (Z.to_nat (IndexAny s seps + 1 + 1))
        with (S (Z.to_nat (IndexAny s seps + 1))) by lia.
      simpl. specialize (IH seps E). lia.
Qed.

Definition attributeIncludesSelector (key val : string) : Selector :=
  attributeSelector key (fun s => includes_loop val s).

Definition dashmatch (val s : string) : bool :=
  if String.eqb s val then true
  else if GoInt.strlen s <=? GoInt.strlen val then false
  else if String.eqb (slice_to s (GoInt.strlen val)) val
          && match byte_at s (GoInt.strlen val) with
             | Some c => Ascii.eqb c "-"
             | None => false
             end
       then true
       else false.

Definition attributeDashmatchSelector (key val : string) : Selector :=
  attributeSelector key (dashmatch val).

(* ===================================================================== *)
(** ** Conjunction and negation *)
(* ===================================================================== *)

Definition intersectionSelector (a b : Selector) : Selector :=
  fun st n => a st n && b st n.

Definition negatedSelector (a : Selector) : Selector :=
  fun st n => negb (a st n).

(* ===================================================================== *)
(** ** Structural selectors *)
(* ===================================================================== *)

(** The guard of the [continue] in both sibling loops:
    [(c.Type != html.ElementNode) || (ofType && c.Data != n.Data)]. *)
Definition skipped (st : store) (n : ptr) (ofType : bool) (c : ptr) : bool :=
  negb (NodeType_eqb (Type_ (st c)) ElementNode)
  || (ofType && negb (String.eqb (Data (st c)) (Data (st n)))).

(** The loop of [nthChildSelector] over [parent.Child], from the state
    [(i, count)]; it returns the state in which the loop is left, either
    at the end of the slice or at the [break]. *)
Fixpoint nthChild_loop (st : store) (n : ptr) (last ofType : bool)
    (children : list ptr) (i count : Z) : Z * Z :=
  match children with
  | [] => (i, count)
  | c :: rest =>
      if skipped st n ofType c then nthChild_loop st n last ofType rest i count
      else
        let count := GoInt.add count 1 in
        if Nat.eqb c n then
          let i := count in
          if negb last then (i, count)
          else nthChild_loop st n last ofType rest i count
        else nthChild_loop st n last ofType rest i count
  end.

(** The arithmetic after the loop, from [if last] on. *)
Definition nthChild_test (a b : Z) (last : bool) (i count : Z) : bool :=
  let i := if last then GoInt.add (GoInt.sub count i) 1 else i in
  let i := GoInt.sub i b in
  if a =? 0 then i =? 0
  else (GoInt.rem i a =? 0) && (GoInt.quo i a >=? 0).

Definition nthChildSelector (a b : Z) (last ofType : bool) : Selector :=
  fun st n =>
    if negb (NodeType_eqb (Type_ (st n)) ElementNode) then false
    else
      match Parent (st n) with
      | None => false
      | Some parent =>
          let '(i, count) :=
            nthChild_loop st n last ofType (Child (st parent)) (-1) 0 in
          if i =? -1 then false
          else nthChild_test a b last i count
      end.

(** The loop of [onlyChildSelector]: [None] when it returns [false] from
    inside the loop, the final [count] otherwise. *)
Fixpoint onlyChild_loop (st : store) (n : ptr) (ofType : bool)
    (children : list ptr) (count : Z) : option Z :=
  match children with
  | [] => Some count
  | c :: rest =>
      if skipped st n ofType c then onlyChild_loop st n ofType rest count
      else
        let count := GoInt.add count 1 in
        if count >? 1 then None
        else onlyChild_loop st n ofType rest count
  end.

Definition onlyChildSelector (ofType : bool) : Selector :=
  fun st n =>
    if negb (NodeType_eqb (Type_ (st n)) ElementNode) then false
    else
      match Parent (st n) with
      | None => false
      | Some parent =>
          match onlyChild_loop st n ofType (Child (st parent)) 0 with
          | None => false
          | Some count => count =? 1
          end
      end.

(* ===================================================================== *)
(** ** [Compile] *)
(* ===================================================================== *)

(** The parser's cursor: the selector text and a byte offset. *)
Module parser.
Record t : Set := mk { s : string; i : Z }.
End parser.

(** An [error] value: a format and its operands, as [fmt.Errorf] takes
    them. *)
Inductive fmt_arg : Set :=
| ArgString (s : string)
| ArgInt (z : Z).

Inductive error : Set :=
| Errorf (format : string) (args : list fmt_arg).

Section Compile.

(** The method [parseSimpleSelectorSequence] of the parser is declared in the parser's
    file; [Compile] is verified for any such method.  It works on the
    cursor it is given and returns a (nullable) selector and a (nullable)
    error. *)
Variable parseSimpleSelectorSequence :
  parser.t -> parser.t * (option Selector * option error).

Definition Compile (sel : string) : option Selector * option error :=
  let p := parser.mk sel 0 in
  let '(p, (compiled, err)) := parseSimpleSelectorSequence p in
  match err with
  | Some e => (None, Some e)
  | None =>
      if parser.i p <? GoInt.strlen sel then
        (None,
         Some (Errorf "parsing %q: %d bytes left over"
                 [ArgString sel;
                  ArgInt (GoInt.sub (GoInt.strlen sel) (parser.i p))]))
      else (compiled, None)
  end.

End Compile.

(* ===================================================================== *)
(** ** [MatchAll] *)
(* ===================================================================== *)

(** [MatchAll] recurses through the [Child] pointers, which the store does
    not force to be well founded: [fuel] bounds the depth of the
    recursion, and [None] means that it was exhausted. *)
Fixpoint MatchAll (fuel : nat) (s : Selector) (st : store) (n : ptr)
  : option (list ptr) :=
  match fuel with
  | O => None
  | S fuel' =>
      let result := if s st n then [] ++ [n] else [] in
      fold_left
        (fun acc child =>
           match acc with
           | None => None
           | Some result =>
               match MatchAll fuel' s st child with
               | None => None
               | Some sub => Some (result ++ sub)
               end
           end)
        (Child (st n)) (Some result)
  end.

(* ===================================================================== *)
(** ** Vocabulary of the specification *)
(* ===================================================================== *)

(** Two keys are equal "compared case-insensitively (ASCII)" when they are
    equal once the letters [A]-[Z] of both are lowercased. *)
Definition eq_ignoring_case (s t : string) : Prop :=
  map_string lower_byte s = map_string lower_byte t.

(** A value "split into a list" on separator bytes: every separator ends
    one element and starts the next, so the list of a value with [k]
    separators has [k + 1] elements, some of them possibly empty. *)
Fixpoint split_any (chars s : string) : list string :=
  match s with
  | EmptyString => [EmptyString]
  | String c s' =>
      if mem_byte c chars then EmptyString :: split_any chars s'
      else match split_any chars s' with
           | f :: fs => String c f :: fs
           | [] => [String c EmptyString]
           end
  end.

(** The same list without its empty elements (the list of the
    whitespace-separated words of the value). *)
Definition words (chars s : string) : list string :=
  filter (fun f => negb (String.eqb f "")) (split_any chars s).

(** [val] is a prefix of [s]. *)
Definition starts_with (s val : string) : Prop :=
  exists rest, s = (val ++ rest)%string.

(** The children that count for the position of [n]: the element
    children, and only those named like [n] when [ofType]. *)
Definition counted (st : store) (n : ptr) (ofType : bool) (c : ptr) : bool :=
  NodeType_eqb (Type_ (st c)) ElementNode
  && (if ofType then String.eqb (Data (st c)) (Data (st n)) else true).

Definition counted_children (st : store) (n : ptr) (ofType : bool)
    (parent : ptr) : list ptr :=
  filter (counted st n ofType) (Child (st parent)).

(** The 1-based position of [n] in a list of nodes, if it occurs. *)
Fixpoint position_in (n : ptr) (l : list ptr) : option Z :=
  match l with
  | [] => None
  | c :: l' =>
      if Nat.eqb c n then Some 1
      else option_map Z.succ (position_in n l')
  end.

Definition position (st : store) (n : ptr) (ofType : bool) (parent : ptr)
  : option Z :=
  position_in n (counted_children st n ofType parent).

Definition sibling_count (st : store) (n : ptr) (ofType : bool) (parent : ptr)
  : Z :=
  GoInt.len (counted_children st n ofType parent).

(** The match rule on the position [i], in the arithmetic of [int]. *)
Definition nth_rule (a b i : Z) : Prop :=
  let j := GoInt.sub i b in
  if a =? 0 then j = 0
  else GoInt.rem j a = 0 /\ GoInt.quo j a >= 0.

(** [i] is a term [a*k + b], [k >= 0], of the progression. *)
Definition reachable (a b i : Z) : Prop :=
  exists k, 0 <= k /\ i = a * k + b.

(** [n] is an element with a parent, and its position among the counted
    children of the parent, mirrored when [last], satisfies [R]. *)
Definition at_position (st : store) (n : ptr) (last ofType : bool)
    (R : Z -> Prop) : Prop :=
  Type_ (st n) = ElementNode /\
  exists parent i,
    Parent (st n) = Some parent /\
    position st n ofType parent = Some i /\
    R (if last then sibling_count st n ofType parent - i + 1 else i).

(** What holds of the siblings of a node in a document tree: the child
    slice of its parent has an [int] length, as every slice, and lists the
    node at most once. *)
Definition siblings_wf (st : store) (n : ptr) : Prop :=
  forall parent, Parent (st n) = Some parent ->
    GoInt.len (Child (st parent)) <= GoInt.max_int /\
    (count_occ Nat.eq_dec (Child (st parent)) n <= 1)%nat.

(** [i - b] stays within [int] for every position [i] that [n] can take
    among its siblings. *)
Definition offset_in_range (st : store) (n : ptr) (b : Z) : Prop :=
  forall parent, Parent (st n) = Some parent ->
    GoInt.min_int + GoInt.len (Child (st parent)) < b <= GoInt.max_int.

(** The parent of [n], if it has one, lists [n] at most once among its
    children. *)
Definition listed_at_most_once (st : store) (n : ptr) : Prop :=
  forall parent, Parent (st n) = Some parent ->
    (count_occ Nat.eq_dec (Child (st parent)) n <= 1)%nat.

(** The naive variant of [nthChildSelector]: its loop is the loop of the
    source without the [if !last { break }], so that it always scans all
    the children and [count] is the full count whatever [last] is.

    [[
    i := -1; count := 0
    for _, c := range parent.Child {
        if (c.Type != html.ElementNode) || (ofType && c.Data != n.Data) {
            continue
        }
        count++
        if c == n { i = count }
    }
    ]] *)
Fixpoint naive_loop (st : store) (n : ptr) (ofType : bool)
    (children : list ptr) (i count : Z) : Z * Z :=
  match children with
  | [] => (i, count)
  | c :: rest =>
      if skipped st n ofType c then naive_loop st n ofType rest i count
      else
        let count := GoInt.add count 1 in
        if Nat.eqb c n then
          let i := count in
          naive_loop st n ofType rest i count
        else naive_loop st n ofType rest i count
  end.

Definition nthChildSelector_naive (a b : Z) (last ofType : bool) : Selector :=
  fun st n =>
    if negb (NodeType_eqb (Type_ (st n)) ElementNode) then false
    else
      match Parent (st n) with
      | None => false
      | Some parent =>
          let '(i, count) :=
            naive_loop st n ofType (Child (st parent)) (-1) 0 in
          if i =? -1 then false
          else nthChild_test a b last i count
      end.

(** [preorder st n l]: the nodes reached from [n] through [Child] are
    finitely many and [l] lists them in pre-order. *)
Inductive preorder (st : store) : ptr -> list ptr -> Prop :=
| preorder_node n l :
    preorder_forest st (Child (st n)) l -> preorder st n (n :: l)
with preorder_forest (st : store) : list ptr -> list ptr -> Prop :=
| preorder_nil : preorder_forest st [] []
| preorder_cons c cs l1 l2 :
    preorder st c l1 -> preorder_forest st cs l2 ->
    preorder_forest st (c :: cs) (l1 ++ l2).

(** The body of the [for _, child := range n.Child] loop of [MatchAll]. *)
Definition MatchAll_step (fuel : nat) (s : Selector) (st : store)
    (acc : option (list ptr)) (child : ptr) : option (list ptr) :=
  match acc with
  | None => None
  | Some result =>
      match MatchAll fuel s st child with
      | None => None
      | Some sub => Some (result ++ sub)
      end
  end.

(** [subs] lists what [MatchAll] returns on each of the nodes [cs], given
    at least [fuel0]. *)
Definition forest_results (s : Selector) (st : store) (fuel0 : nat)
    (cs : list ptr) (subs : list (list ptr)) : Prop :=
  Forall2 (fun c r => forall fuel, (fuel0 <= fuel)%nat ->
                                   MatchAll fuel s st c = Some r) cs subs.

(** A finite tree rooted at [n]: the traversal from [n] is finite and
    meets no node twice. *)
Definition is_tree (st : store) (n : ptr) : Prop :=
  exists l, preorder st n l /\ NoDup l.

Definition is_child (st : store) (m c : ptr) : Prop := In c (Child (st m)).

(** [d] is a proper descendant of [m]. *)
Inductive descendant (st : store) (m : ptr) : ptr -> Prop :=
| descendant_child c : is_child st m c -> descendant st m c
| descendant_step c d : descendant st m c -> is_child st c d -> descendant st m d.

(** [l] holds the children of each of its nodes. *)
Definition closed (st : store) (l : list ptr) : Prop :=
  forall x d, In x l -> is_child st x d -> In d l.

(** [x] occurs in [l] before [y]. *)
Definition precedes (x y : ptr) (l : list ptr) : Prop :=
  exists l1 l2 l3, l = l1 ++ x :: l2 ++ y :: l3.

(* ===================================================================== *)
(** ** Prefix, suffix and substring selectors *)
(* ===================================================================== *)

(** [strings.HasPrefix]: [len(s) >= len(prefix) && s[:len(prefix)] == prefix]. *)
Definition HasPrefix (s prefix : string) : bool :=
  (GoInt.strlen s >=? GoInt.strlen prefix)
  && String.eqb (slice_to s (GoInt.strlen prefix)) prefix.

(** [strings.HasSuffix]:
    [len(s) >= len(suffix) && s[len(s)-len(suffix):] == suffix]; the
    difference of the two lengths is taken when it is not negative, and is
    then within [int]. *)
Definition HasSuffix (s suffix : string) : bool :=
  (GoInt.strlen s >=? GoInt.strlen suffix)
  && String.eqb (slice_from s (GoInt.strlen s - GoInt.strlen suffix)) suffix.

(** [strings.Index]: the index of the first occurrence of [substr] in
    [s], or [-1]. *)
Fixpoint Index (s substr : string) : Z :=
  if HasPrefix s substr then 0
  else match s with
       | EmptyString => -1
       | String _ s' =>
           let i := Index s' substr in
           if i =? -1 then -1 else i + 1
       end.

(** [strings.Contains]: [Index(s, substr) >= 0]. *)
Definition Contains (s substr : string) : bool := Index s substr >=? 0.

Definition attributePrefixSelector (key val : string) : Selector :=
  attributeSelector key (fun s => HasPrefix s val).

Definition attributeSuffixSelector (key val : string) : Selector :=
  attributeSelector key (fun s => HasSuffix s val).

Definition attributeSubstringSelector (key val : string) : Selector :=
  attributeSelector key (fun s => Contains s val).

(** [s] has a byte in [A]-[Z]. *)
Fixpoint has_capital (s : string) : bool :=
  match s with
  | EmptyString => false
  | String c s' => is_upper c || has_capital s'
  end.

(** [s] has one of the bytes of [chars]. *)
Fixpoint has_any (chars s : string) : bool :=
  match s with
  | EmptyString => false
  | String c s' => mem_byte c chars || has_any chars s'
  end.

(** [val] is a suffix of [s]. *)
Definition ends_with (s val : string) : Prop :=
  exists front, s = (front ++ val)%string.

(** [val] occurs in [s]. *)
Definition occurs_in (s val : string) : Prop :=
  exists front rest, s = (front ++ val ++ rest)%string.

(** The parent of [n], if it has one, lists [n] among its children. *)
Definition listed (st : store) (n : ptr) : Prop :=
  forall parent, Parent (st n) = Some parent -> In n (Child (st parent)).

(** The store in which the children of [p] are listed in the reverse
    order; nothing else changes. *)
Definition reverse_children (st : store) (p : ptr) : store :=
  fun q =>
    if Nat.eqb q p
    then mkNode (Parent (st q)) (rev (Child (st q))) (Type_ (st q))
           (Data (st q)) (Attr (st q))
    else st q.

(* ===================================================================== *)
(** ** Sample documents *)
(* ===================================================================== *)

Definition element (parent : option ptr) (children : list ptr)
    (name : string) (attrs : list Attribute) : Node :=
  mkNode parent children ElementNode name attrs.

Definition text (parent : option ptr) (data : string) : Node :=
  mkNode parent [] TextNode data [].

(** A [div] holding, in this order, a [span], a text node, a [div], two
    [span]s, a [div] with a list inside, and a comment. *)
Definition sample_doc : store :=
  fun p =>
    match p with
    | 0 => element None [1; 2; 3; 4; 5; 6; 9] "div" []
    | 1 => element (Some 0) [] "span"
             [mkAttribute "class" "a b c"; mkAttribute "lang" "en-US"]
    | 2 => text (Some 0) "hello"
    | 3 => element (Some 0) [] "div" [mkAttribute "ID" "main"]
    | 4 => element (Some 0) [] "span" [mkAttribute "lang" "en"]
    | 5 => element (Some 0) [] "span" [mkAttribute "lang" "english"]
    | 6 => element (Some 0) [7] "div" [mkAttribute "class" "box"]
    | 7 => element (Some 6) [8] "ul" [mkAttribute "class" " menu"]
    | 8 => element (Some 7) [] "li" [mkAttribute "class" "item "]
    | 9 => mkNode (Some 0) [] CommentNode "note" []
    | _ => text None ""
    end%nat.

(** A list whose second item names the list as its parent without being
    one of the list's children. *)
Definition detached_doc : store :=
  fun p =>
    match p with
    | 0 => element None [1] "ul" []
    | 1 => element (Some 0) [] "li" []
    | 2 => element (Some 0) [] "li" []
    | _ => text None ""
    end%nat.

(** A list that holds the same item twice. *)
Definition twice_doc : store :=
  fun p =>
    match p with
    | 0 => element None [1; 1] "ul" []
    | 1 => element (Some 0) [] "li" []
    | _ => text None ""
    end%nat.

(** A parser that reads the letters [a]-[z] at the cursor and stops at the
    first other byte; the selector it returns matches every node. *)
Fixpoint count_letters (s : string) : Z :=
  match s with
  | String c s' =>
      if byte_le "a" c && byte_le c "z" then 1 + count_letters s' else 0
  | EmptyString => 0
  end.

Definition letters_parser (p : parser.t)
  : parser.t * (option Selector * option error) :=
  let rest := slice_from (parser.s p) (parser.i p) in
  (parser.mk (parser.s p) (parser.i p + count_letters rest),
   (Some (fun _ _ => true), None)).

(** An element whose name and attribute key are written in capitals. *)
Definition capitals_doc : store :=
  fun p =>
    match p with
    | 0 => element None [] "DIV" [mkAttribute "CLASS" "box"]
    | _ => text None ""
    end%nat.

(** Two elements that list each other as a child. *)
Definition cyclic_doc : store :=
  fun p =>
    match p with
    | 0 => element (Some 1) [1] "a" []
    | 1 => element (Some 0) [0] "b" []
    | _ => text None ""
    end%nat.

(* ===================================================================== *)
(** * Properties *)
(* ===================================================================== *)

Implicit Types (st : store) (n parent : ptr) (last ofType : bool).
Implicit Types (key val : string).

(** ** The selectors on the sample document *)

Example toLowerASCII_mixed : toLowerASCII "DiV-Id" = "div-id"%string.
Proof. reflexivity. Qed.

Example includes_class_b :
  attributeIncludesSelector "class" "b" sample_doc 1%nat = true /\
  attributeIncludesSelector "class" "ab" sample_doc 1%nat = false.
Proof. split; reflexivity. Qed.

Example dashmatch_lang_en :
  map (attributeDashmatchSelector "lang" "en" sample_doc) [1; 4; 5]%nat
  = [true; true; false].
Proof. reflexivity. Qed.

(** The element children of the root are the nodes 1, 3, 4, 5 and 6. *)
Example nth_child_odd :
  map (nthChildSelector 2 1 false false sample_doc) [1; 3; 4; 5; 6]%nat
  = [true; false; true; false; true].
Proof. reflexivity. Qed.

Example nth_child_third :
  map (nthChildSelector 0 3 false false sample_doc) [1; 3; 4; 5; 6]%nat
  = [false; false; true; false; false].
Proof. reflexivity. Qed.

Example nth_last_of_type_second :
  map (nthChildSelector 0 2 true true sample_doc) [1; 3; 4; 5; 6]%nat
  = [false; true; true; false; false].
Proof. reflexivity. Qed.

Example only_child_nested :
  map (onlyChildSelector false sample_doc) [0; 1; 7; 8]%nat
  = [false; false; true; true].
Proof. reflexivity. Qed.

Example match_all_div :
  MatchAll 4 (typeSelector "DIV") sample_doc 0%nat = Some [0; 3; 6]%nat.
Proof. reflexivity. Qed.

Example compile_leftover :
  Compile letters_parser "div[" =
  (None, Some (Errorf "parsing %q: %d bytes left over"
                 [ArgString "div["; ArgInt 1])).
Proof. reflexivity. Qed.

(** ** Arithmetic of [int] *)

Lemma wrap_in_range z : GoInt.in_range z -> GoInt.wrap z = z.
Proof.
  unfold GoInt.in_range, GoInt.wrap, GoInt.min_int, GoInt.max_int. intros H.
  rewrite Z.mod_small; lia.
Qed.

Lemma add_in_range x y : GoInt.in_range (x + y) -> GoInt.add x y = x + y.
Proof. apply wrap_in_range. Qed.

Lemma sub_in_range x y : GoInt.in_range (x - y) -> GoInt.sub x y = x - y.
Proof. apply wrap_in_range. Qed.

Lemma NodeType_eqb_eq x y : NodeType_eqb x y = true <-> x = y.
Proof. destruct x, y; simpl; split; congruence. Qed.

Lemma not_element_false st n :
  negb (NodeType_eqb (Type_ (st n)) ElementNode) = false <->
  Type_ (st n) = ElementNode.
Proof. rewrite negb_false_iff. apply NodeType_eqb_eq. Qed.

(** ** [toLowerASCII] lowercases every byte *)

Lemma set_byte_app (l1 l2 : list ascii) c v :
  set_byte (l1 ++ c :: l2) (List.length l1) v = l1 ++ v :: l2.
Proof. induction l1 as [|x l1 IH]; simpl; [reflexivity | now rewrite IH]. Qed.

Lemma toLower_loop_inv (s : list ascii) :
  forall m k b,
    (k + m = List.length s)%nat ->
    buffer_or s b = map lower_byte (firstn k s) ++ skipn k s ->
    buffer_or s (fold_left (toLower_step s) (seq k m) b) = map lower_byte s.
Proof.
  induction m as [|m IH]; intros k b Hlen Hb; simpl.
  - rewrite Hb. replace k with (List.length s) by lia.
    rewrite firstn_all, skipn_all. apply app_nil_r.
  - apply IH; [lia|].
    assert (Hk : (k < List.length s)%nat) by lia.
    destruct (nth_error s k) as [c|] eqn:Hc;
      [|apply nth_error_None in Hc; lia].
    destruct (nth_error_split s k Hc) as (l1 & l2 & Hs & Hl1).
    assert (Hf : firstn k s = l1).
    { rewrite Hs, <- Hl1. rewrite firstn_app, Nat.sub_diag, firstn_all.
      simpl. apply app_nil_r. }
    assert (Hsk : skipn k s = c :: l2).
    { rewrite Hs at 1. rewrite <- Hl1, skipn_app, Nat.sub_diag, skipn_all.
      reflexivity. }
    assert (Hf' : firstn (S k) s = l1 ++ [c]).
    { rewrite Hs at 1. rewrite <- Hl1.
      rewrite firstn_app, firstn_all2 by lia.
      replace (S (List.length l1) - List.length l1)%nat with 1%nat by lia.
      reflexivity. }
    assert (Hsk' : skipn (S k) s = l2).
    { rewrite Hs at 1. rewrite <- Hl1.
      rewrite skipn_app, skipn_all2 by lia.
      replace (S (List.length l1) - List.length l1)%nat with 1%nat by lia.
      reflexivity. }
    rewrite Hf' , Hsk', map_app. simpl. rewrite <- app_assoc. simpl.
    rewrite Hf, Hsk in Hb.
    unfold toLower_step. rewrite Hc. unfold lower_byte.
    destruct (is_upper c).
    + change (buffer_or s (Some ?x)) with x.
      fold (buffer_or s b). rewrite Hb.
      rewrite <- Hl1, <- (length_map lower_byte l1).
      apply set_byte_app.
    + exact Hb.
Qed.

Lemma string_of_map_list f s :
  string_of_list_ascii (map f (list_ascii_of_string s)) = map_string f s.
Proof. induction s as [|c s IH]; simpl; [reflexivity | now rewrite IH]. Qed.

Lemma toLowerASCII_map s : toLowerASCII s = map_string lower_byte s.
Proof.
  unfold toLowerASCII.
  pose proof (toLower_loop_inv (list_ascii_of_string s)
                (List.length (list_ascii_of_string s)) 0 None eq_refl eq_refl)
    as H.
  cbv zeta.
  destruct (fold_left _ _ None) as [b|]; simpl in H.
  - rewrite H. apply string_of_map_list.
  - rewrite <- string_of_map_list, <- H.
    symmetry. apply string_of_list_ascii_of_string.
Qed.

Lemma lower_byte_idem c : lower_byte (lower_byte c) = lower_byte c.
Proof.
  destruct c as [[] [] [] [] [] [] [] []]; reflexivity.
Qed.

Lemma toLowerASCII_idem s : toLowerASCII (toLowerASCII s) = toLowerASCII s.
Proof.
  rewrite !toLowerASCII_map.
  induction s as [|c s IH]; simpl; [reflexivity|].
  now rewrite lower_byte_idem, IH.
Qed.

(** ** The attribute loop *)

Lemma attr_loop_true key f (attrs : list Attribute) :
  attr_loop key f attrs = true <->
  exists a, In a attrs /\ Key a = key /\ f (Val a) = true.
Proof.
  induction attrs as [|a rest IH]; simpl.
  - split; [discriminate | intros (a & [] & _)].
  - destruct (String.eqb (Key a) key && f (Val a)) eqn:E.
    + apply andb_true_iff in E as [Hk Hf]. apply String.eqb_eq in Hk.
      split; [intros _; exists a; auto | reflexivity].
    + rewrite IH. split.
      * intros (x & Hin & Hx). exists x. auto.
      * intros (x & [-> | Hin] & Hk & Hf).
        -- rewrite <- Hk, String.eqb_refl, Hf in E. discriminate.
        -- exists x. auto.
Qed.

Lemma attributeSelector_true key f st n :
  attributeSelector key f st n = true <->
  Type_ (st n) = ElementNode /\
  exists a, In a (Attr (st n)) /\ Key a = toLowerASCII key /\ f (Val a) = true.
Proof.
  unfold attributeSelector.
  destruct (negb (NodeType_eqb (Type_ (st n)) ElementNode)) eqn:E.
  - split; [discriminate|]. intros [H _].
    apply not_element_false in H. congruence.
  - apply not_element_false in E. rewrite attr_loop_true. tauto.
Qed.

(** ** Splitting at the first separator *)

Lemma IndexAny_lower chars (s : string) :
  IndexAny s chars = -1 \/ 0 <= IndexAny s chars.
Proof.
  induction s as [|c s IH]; simpl; [now left|].
  destruct (mem_byte c chars); [right; lia|].
  destruct (IndexAny s chars =? -1) eqn:E; [now left | right].
  apply Z.eqb_neq in E. lia.
Qed.

Lemma split_any_none chars (s : string) :
  IndexAny s chars = -1 -> split_any chars s = [s].
Proof.
  induction s as [|c s IH]; simpl; [reflexivity|].
  destruct (mem_byte c chars); [discriminate|].
  destruct (IndexAny s chars =? -1) eqn:E.
  - apply Z.eqb_eq in E. rewrite (IH E). reflexivity.
  - pose proof (IndexAny_lower chars s). apply Z.eqb_neq in E. lia.
Qed.

Lemma split_any_some chars (s : string) :
  IndexAny s chars <> -1 ->
  split_any chars s =
    slice_to s (IndexAny s chars)
    :: split_any chars (slice_from s (IndexAny s chars + 1)).
Proof.
  unfold slice_to, slice_from.
  induction s as [|c s IH]; simpl; [congruence|].
  destruct (mem_byte c chars); [reflexivity|].
  destruct (IndexAny s chars =? -1) eqn:E; [congruence|].
  apply Z.eqb_neq in E. intros _.
  pose proof (IndexAny_lower chars s) as [H|H]; [congruence|].
  rewrite (IH E).
  replace (Z.to_nat (IndexAny s chars + 1))
    with (S (Z.to_nat (IndexAny s chars))) by lia.
  replace (Z.to_nat (IndexAny s chars + 1 + 1))
    with (S (S (Z.to_nat (IndexAny s chars)))) by lia.
  reflexivity.
Qed.

Lemma includes_loop_split val (s : string) :
  val <> EmptyString ->
  includes_loop val s = true <-> In val (split_any separators s).
Proof.
  intros Hval. funelim (includes_loop val s).
  - clear H Heqcall. apply String.eqb_eq in e. subst s. simpl.
    split; [discriminate | intros [H'|[]]; congruence].
  - clear H H0 Heqcall e. apply Z.eqb_eq in e0.
    rewrite (split_any_none _ _ e0). rewrite String.eqb_eq. simpl.
    split; [intros ->; now left | intros [H'|[]]; congruence].
  - clear H0 H1 Heqcall e. apply Z.eqb_neq in Hfound.
    rewrite (split_any_some _ _ Hfound). simpl In.
    destruct (String.eqb (slice_to s (IndexAny s separators)) val) eqn:E.
    + apply String.eqb_eq in E. split; [now left | reflexivity].
    + apply String.eqb_neq in E. rewrite (H Hval).
      split; [now right | intros [H'|H']; [contradiction | exact H']].
Qed.

(** ** Prefixes *)

Lemma take_bytes_app (val rest : string) :
  take_bytes (String.length val) (val ++ rest) = val.
Proof. induction val as [|c val IH]; simpl; [now destruct rest | now rewrite IH]. Qed.

Lemma take_drop_bytes k (s : string) :
  (take_bytes k s ++ drop_bytes k s)%string = s.
Proof.
  revert s. induction k as [|k IH]; intros [|c s]; simpl; try reflexivity.
  now rewrite IH.
Qed.

Lemma slice_to_prefix (s val : string) :
  String.eqb (slice_to s (GoInt.strlen val)) val = true <-> starts_with s val.
Proof.
  unfold slice_to, GoInt.strlen, starts_with. rewrite Nat2Z.id, String.eqb_eq.
  split.
  - intros H. exists (drop_bytes (String.length val) s).
    rewrite <- H at 1. symmetry. apply take_drop_bytes.
  - intros (rest & ->). apply take_bytes_app.
Qed.

Lemma dashmatch_true val (s : string) :
  dashmatch val s = true <->
  s = val \/
  (String.length val < String.length s)%nat /\ starts_with s val /\
  byte_at s (GoInt.strlen val) = Some "-"%char.
Proof.
  unfold dashmatch.
  destruct (String.eqb s val) eqn:E.
  { apply String.eqb_eq in E. split; [now left | reflexivity]. }
  apply String.eqb_neq in E.
  destruct (GoInt.strlen s <=? GoInt.strlen val) eqn:L.
  { apply Z.leb_le in L. unfold GoInt.strlen in L.
    split; [discriminate | intros [H | (H & _)]; [contradiction | lia]]. }
  apply Z.leb_gt in L. unfold GoInt.strlen in L.
  destruct (String.eqb (slice_to s (GoInt.strlen val)) val) eqn:P; simpl.
  - apply slice_to_prefix in P.
    destruct (byte_at s (GoInt.strlen val)) as [c|] eqn:B.
    + destruct (Ascii.eqb c "-") eqn:C.
      * apply Ascii.eqb_eq in C. subst c.
        split; [intros _; right; repeat split; [lia | exact P] | reflexivity].
      * apply Ascii.eqb_neq in C.
        split; [discriminate | intros [H | (_ & _ & H)]; congruence].
    + split; [discriminate | intros [H | (_ & _ & H)]; congruence].
  - split; [discriminate|]. intros [H | (_ & H & _)]; [contradiction|].
    apply slice_to_prefix in H. congruence.
Qed.

(** ** The sibling loops *)

Lemma skipped_counted st n ofType (c : ptr) :
  skipped st n ofType c = negb (counted st n ofType c).
Proof.
  unfold skipped, counted.
  destruct (NodeType_eqb _ _), ofType, (String.eqb _ _); reflexivity.
Qed.

Lemma len_cons {A : Type} (x : A) (l : list A) :
  GoInt.len (x :: l) = GoInt.len l + 1.
Proof. unfold GoInt.len. simpl List.length. lia. Qed.

Lemma len_nonneg {A : Type} (l : list A) : 0 <= GoInt.len l.
Proof. unfold GoInt.len. lia. Qed.

Lemma len_filter_le {A : Type} (f : A -> bool) (l : list A) :
  GoInt.len (filter f l) <= GoInt.len l.
Proof. unfold GoInt.len. pose proof (filter_length_le f l). lia. Qed.

Lemma position_in_absent n (l : list ptr) :
  ~ In n l -> position_in n l = None.
Proof.
  induction l as [|c l IH]; simpl; [reflexivity|]. intros H.
  destruct (Nat.eqb c n) eqn:E.
  - apply Nat.eqb_eq in E. tauto.
  - rewrite IH by tauto. reflexivity.
Qed.

Lemma position_in_bounds n (l : list ptr) (k : Z) :
  position_in n l = Some k -> 1 <= k <= GoInt.len l.
Proof.
  revert k. induction l as [|c l IH]; simpl; [discriminate|]. intros k.
  rewrite len_cons. pose proof (len_nonneg l).
  destruct (Nat.eqb c n).
  - intros [= <-]. lia.
  - destruct (position_in n l) as [k'|]; simpl; [|discriminate].
    intros [= <-]. specialize (IH k' eq_refl). lia.
Qed.

Lemma position_in_nth n (l : list ptr) (k : Z) :
  position_in n l = Some k -> nth_error l (Z.to_nat (k - 1)) = Some n.
Proof.
  revert k. induction l as [|c l IH]; simpl; [discriminate|]. intros k.
  destruct (Nat.eqb c n) eqn:E.
  - intros [= <-]. apply Nat.eqb_eq in E. subst. reflexivity.
  - destruct (position_in n l) as [k'|] eqn:P; simpl; [|discriminate].
    intros [= <-]. pose proof (position_in_bounds _ _ _ P).
    replace (Z.to_nat (Z.succ k' - 1)) with (S (Z.to_nat (k' - 1))) by lia.
    simpl. apply IH. reflexivity.
Qed.

(** A node that is not among the children leaves [i] untouched. *)
Lemma nthChild_loop_absent st n last ofType (cs : list ptr) :
  ~ In n cs ->
  forall i count, fst (nthChild_loop st n last ofType cs i count) = i.
Proof.
  induction cs as [|c cs IH]; simpl; intros Hn i count; [reflexivity|].
  destruct (skipped st n ofType c); [apply IH; tauto|].
  destruct (Nat.eqb c n) eqn:E.
  - apply Nat.eqb_eq in E. tauto.
  - apply IH. tauto.
Qed.

(** What the loop leaves in [(i, count)] when the children list [n] at
    most once and [count] cannot overflow. *)
Lemma nthChild_loop_spec st n last ofType (cs : list ptr) :
  forall i0 c0,
    0 <= c0 -> c0 + GoInt.len cs <= GoInt.max_int ->
    (count_occ Nat.eq_dec cs n <= 1)%nat ->
    nthChild_loop st n last ofType cs i0 c0 =
    let total := c0 + GoInt.len (filter (counted st n ofType) cs) in
    match position_in n (filter (counted st n ofType) cs) with
    | None => (i0, total)
    | Some k => (c0 + k, if last then total else c0 + k)
    end.
Proof.
  induction cs as [|c cs IH]; intros i0 c0 H0 Hmax Hocc; cbn zeta.
  - simpl. unfold GoInt.len. simpl. f_equal. lia.
  - rewrite len_cons in Hmax. pose proof (len_nonneg cs) as Hl.
    simpl nthChild_loop. simpl filter. rewrite skipped_counted.
    assert (Hocc' : (count_occ Nat.eq_dec cs n <= 1)%nat).
    { simpl in Hocc. destruct (Nat.eq_dec c n); lia. }
    destruct (counted st n ofType c) eqn:Hc; simpl negb; cbv iota.
    + assert (Hadd : GoInt.add c0 1 = c0 + 1).
      { apply add_in_range. unfold GoInt.in_range, GoInt.min_int.
        unfold GoInt.max_int in *. lia. }
      cbn zeta. rewrite Hadd. rewrite len_cons. simpl position_in.
      destruct (Nat.eqb c n) eqn:E.
      * apply Nat.eqb_eq in E. subst c.
        assert (Hnot : ~ In n cs).
        { simpl in Hocc. destruct (Nat.eq_dec n n); [|congruence].
          apply (count_occ_not_In Nat.eq_dec). lia. }
        destruct last; simpl negb; cbv iota.
        -- rewrite (IH (c0 + 1) (c0 + 1)) by (auto; lia). cbn zeta.
           rewrite position_in_absent.
           ++ f_equal. lia.
           ++ intros Hin. apply filter_In in Hin. tauto.
        -- reflexivity.
      * rewrite (IH i0 (c0 + 1)) by (auto; lia). cbn zeta.
        destruct (position_in n (filter (counted st n ofType) cs)) as [k|];
          simpl option_map; cbv iota.
        -- destruct last; f_equal; lia.
        -- f_equal. lia.
    + rewrite (IH i0 c0) by (auto; lia). reflexivity.
Qed.

Lemma nthChild_test_rule (a b : Z) last (i count : Z) :
  nthChild_test a b last i count = true <->
  nth_rule a b (if last then GoInt.add (GoInt.sub count i) 1 else i).
Proof.
  unfold nthChild_test, nth_rule. cbv zeta.
  destruct (a =? 0).
  - apply Z.eqb_eq.
  - rewrite andb_true_iff, Z.eqb_eq, Z.geb_le. lia.
Qed.

(** Without overflow in [i - b], the rule says that [i] is a term of the
    progression. *)
Lemma nth_rule_reachable (a b i : Z) :
  GoInt.min_int < i - b <= GoInt.max_int ->
  nth_rule a b i <-> reachable a b i.
Proof.
  intros Hr. unfold nth_rule, reachable. cbv zeta.
  rewrite sub_in_range by (unfold GoInt.in_range; lia).
  destruct (a =? 0) eqn:Ea.
  - apply Z.eqb_eq in Ea. subst a. split.
    + intros H. exists 0. lia.
    + intros (k & _ & H). lia.
  - apply Z.eqb_neq in Ea. unfold GoInt.rem, GoInt.quo.
    assert (Hq : GoInt.wrap (Z.quot (i - b) a) = Z.quot (i - b) a).
    { apply wrap_in_range. unfold GoInt.in_range.
      unfold GoInt.min_int, GoInt.max_int in *.
      pose proof (Z.quot_abs (i - b) a Ea) as Hab.
      assert (Z.abs (Z.quot (i - b) a) <= Z.abs (i - b)).
      { rewrite <- Hab. apply Z.quot_le_upper_bound; [lia|].
        assert (1 <= Z.abs a) by lia.
        pose proof (Z.abs_nonneg (i - b)). nia. }
      lia. }
    rewrite Hq. split.
    + intros [Hrem Hquo]. exists (Z.quot (i - b) a). split; [lia|].
      pose proof (Z.quot_rem' (i - b) a). lia.
    + intros (k & Hk & ->).
      replace (a * k + b - b) with (k * a) by lia.
      rewrite Z.rem_mul, Z.quot_mul by assumption. lia.
Qed.

Lemma onlyChild_loop_spec st n ofType (cs : list ptr) :
  forall c0, 0 <= c0 <= 1 ->
    onlyChild_loop st n ofType cs c0 =
    let total := c0 + GoInt.len (filter (counted st n ofType) cs) in
    if total >? 1 then None else Some total.
Proof.
  induction cs as [|c cs IH]; intros c0 H0; cbn zeta.
  - simpl. unfold GoInt.len. simpl.
    destruct (c0 + 0 >? 1) eqn:E; [lia | f_equal; lia].
  - simpl onlyChild_loop. simpl filter. rewrite skipped_counted.
    destruct (counted st n ofType c); simpl negb; cbv iota.
    + cbn zeta. rewrite add_in_range
        by (unfold GoInt.in_range, GoInt.min_int, GoInt.max_int; lia).
      rewrite len_cons.
      pose proof (len_nonneg (filter (counted st n ofType) cs)).
      destruct (c0 + 1 >? 1) eqn:E.
      * destruct (c0 + (GoInt.len (filter (counted st n ofType) cs) + 1) >? 1)
          eqn:E'; [reflexivity | lia].
      * rewrite IH by lia. cbn zeta.
        replace (c0 + 1 + GoInt.len (filter (counted st n ofType) cs))
          with (c0 + (GoInt.len (filter (counted st n ofType) cs) + 1)) by lia.
        reflexivity.
    + apply IH. exact H0.
Qed.

(** Past the last occurrence of [n], the exhaustive scan keeps [i]. *)
Lemma naive_loop_absent st n ofType (cs : list ptr) :
  ~ In n cs ->
  forall i count, fst (naive_loop st n ofType cs i count) = i.
Proof.
  induction cs as [|c cs IH]; simpl; intros Hn i count; [reflexivity|].
  destruct (skipped st n ofType c); [apply IH; tauto|].
  destruct (Nat.eqb c n) eqn:E.
  - apply Nat.eqb_eq in E. tauto.
  - apply IH. tauto.
Qed.

(** The scan that stops at [n] and the exhaustive scan record the same
    position when [n] occurs at most once. *)
Lemma nthChild_loop_naive st n ofType (cs : list ptr) :
  (count_occ Nat.eq_dec cs n <= 1)%nat ->
  forall i count,
    fst (nthChild_loop st n false ofType cs i count) =
    fst (naive_loop st n ofType cs i count).
Proof.
  induction cs as [|c cs IH]; simpl; intros Hocc i count; [reflexivity|].
  destruct (Nat.eq_dec c n) as [->|Hne].
  - destruct (skipped st n ofType n); [apply IH; lia|].
    rewrite Nat.eqb_refl. simpl. symmetry. apply naive_loop_absent.
    apply (count_occ_not_In Nat.eq_dec). lia.
  - destruct (skipped st n ofType c); [apply IH; exact Hocc|].
    destruct (Nat.eqb c n) eqn:E; [apply Nat.eqb_eq in E; contradiction|].
    apply IH. exact Hocc.
Qed.

(** ** The traversal *)

Scheme preorder_mut := Minimality for preorder Sort Prop
  with preorder_forest_mut := Minimality for preorder_forest Sort Prop.
Combined Scheme preorder_mutind from preorder_mut, preorder_forest_mut.

Lemma MatchAll_unfold fuel (s : Selector) st n :
  MatchAll (S fuel) s st n =
  fold_left (MatchAll_step fuel s st) (Child (st n))
    (Some (if s st n then [n] else [])).
Proof. reflexivity. Qed.

Lemma MatchAll_children fuel (s : Selector) st (cs : list ptr)
    (subs : list (list ptr)) :
  Forall2 (fun c r => MatchAll fuel s st c = Some r) cs subs ->
  forall acc,
    fold_left (MatchAll_step fuel s st) cs (Some acc)
    = Some (acc ++ List.concat subs).
Proof.
  induction 1 as [|c r cs subs Hc _ IH]; intros acc; simpl.
  - now rewrite app_nil_r.
  - rewrite Hc, IH, app_assoc. reflexivity.
Qed.

Lemma forest_results_mono (s : Selector) st f f' cs subs :
  (f <= f')%nat -> forest_results s st f cs subs ->
  forest_results s st f' cs subs.
Proof.
  intros Hle H. induction H as [|c r cs subs Hc _ IH]; constructor; auto.
  intros fuel Hf. apply Hc. lia.
Qed.

Lemma forest_results_at (s : Selector) st f cs subs fuel :
  (f <= fuel)%nat -> forest_results s st f cs subs ->
  Forall2 (fun c r => MatchAll fuel s st c = Some r) cs subs.
Proof.
  intros Hle H. induction H as [|c r cs subs Hc _ IH]; constructor; auto.
Qed.

(** On a finite traversal, enough fuel makes [MatchAll] return the
    matching nodes of the pre-order list, child by child. *)
Lemma MatchAll_filter (s : Selector) st :
  (forall n l, preorder st n l ->
     exists fuel0, forall fuel, (fuel0 <= fuel)%nat ->
       MatchAll fuel s st n = Some (filter (s st) l))
  /\
  (forall cs l, preorder_forest st cs l ->
     exists fuel0 subs,
       forest_results s st fuel0 cs subs /\
       List.concat subs = filter (s st) l).
Proof.
  apply preorder_mutind.
  - intros n l _ (f0 & subs & Hsubs & Hcat).
    exists (S f0). intros [|fuel] Hf; [lia|].
    rewrite MatchAll_unfold.
    rewrite (MatchAll_children fuel s st _ subs)
      by (apply (forest_results_at s st f0); [lia | exact Hsubs]).
    rewrite Hcat. simpl. destruct (s st n); reflexivity.
  - exists 0%nat, []. split; [constructor | reflexivity].
  - intros c cs l1 l2 _ (f1 & H1) _ (f2 & subs & H2 & Hcat).
    exists (Nat.max f1 f2), (filter (s st) l1 :: subs). split.
    + constructor.
      * intros fuel Hf. apply H1. lia.
      * apply (forest_results_mono s st f2); [lia | exact H2].
    + simpl. rewrite Hcat, filter_app. reflexivity.
Qed.

Lemma preorder_closed st :
  (forall n l, preorder st n l -> In n l /\ closed st l) /\
  (forall cs l, preorder_forest st cs l ->
     (forall c, In c cs -> In c l) /\ closed st l).
Proof.
  apply preorder_mutind.
  - intros n l _ [Hroots Hcl]. split; [now left|].
    intros x d [<- | Hx] Hd; right.
    + apply Hroots. exact Hd.
    + apply (Hcl x d Hx Hd).
  - split; [intros c [] | intros x d []].
  - intros c cs l1 l2 _ [Hc Hcl1] _ [Hcs Hcl2]. split.
    + intros x [<- | Hx]; apply in_or_app; [left | right]; auto.
    + intros x d Hx Hd. apply in_or_app.
      apply in_app_or in Hx as [Hx | Hx]; [left | right].
      * apply (Hcl1 x d Hx Hd).
      * apply (Hcl2 x d Hx Hd).
Qed.

Lemma descendant_closed st (l : list ptr) (m d : ptr) :
  closed st l -> (forall c, is_child st m c -> In c l) ->
  descendant st m d -> In d l.
Proof.
  intros Hcl Hm H. induction H as [c Hc | c d _ IH Hd].
  - apply Hm, Hc.
  - apply (Hcl c d IH Hd).
Qed.

Lemma precedes_cons x y z (l : list ptr) :
  precedes x y l -> precedes x y (z :: l).
Proof. intros (l1 & l2 & l3 & ->). now exists (z :: l1), l2, l3. Qed.

Lemma precedes_app_l x y (l l' : list ptr) :
  precedes x y l -> precedes x y (l ++ l').
Proof.
  intros (l1 & l2 & l3 & ->). exists l1, l2, (l3 ++ l').
  rewrite <- app_assoc. simpl. rewrite <- app_assoc. reflexivity.
Qed.

Lemma precedes_app_r x y (l l' : list ptr) :
  precedes x y l -> precedes x y (l' ++ l).
Proof.
  intros (l1 & l2 & l3 & ->). exists (l' ++ l1), l2, l3.
  rewrite <- app_assoc. reflexivity.
Qed.

Lemma precedes_filter (f : ptr -> bool) x y (l : list ptr) :
  f x = true -> f y = true -> precedes x y l -> precedes x y (filter f l).
Proof.
  intros Hx Hy (l1 & l2 & l3 & ->).
  exists (filter f l1), (filter f l2), (filter f l3).
  rewrite filter_app. simpl. rewrite Hx, filter_app. simpl. rewrite Hy.
  reflexivity.
Qed.

(** In a pre-order list every node stands before its descendants. *)
Lemma preorder_precedes st :
  (forall n l, preorder st n l ->
     forall m d, In m l -> descendant st m d -> precedes m d l) /\
  (forall cs l, preorder_forest st cs l ->
     forall m d, In m l -> descendant st m d -> precedes m d l).
Proof.
  apply preorder_mutind.
  - intros n l Hf IH m d [<- | Hm] Hd.
    + destruct (proj2 (preorder_closed st) _ _ Hf) as [Hroots Hcl].
      pose proof (descendant_closed st l n d Hcl Hroots Hd) as Hin.
      apply in_split in Hin as (l2 & l3 & ->).
      now exists [], l2, l3.
    + apply precedes_cons. apply (IH m d Hm Hd).
  - intros m d [].
  - intros c cs l1 l2 _ IH1 _ IH2 m d Hm Hd.
    apply in_app_or in Hm as [Hm | Hm].
    + apply precedes_app_l. apply (IH1 m d Hm Hd).
    + apply precedes_app_r. apply (IH2 m d Hm Hd).
Qed.

(* ===================================================================== *)
(** * The claims *)
(* ===================================================================== *)

(** ** Attribute selectors *)

(** C2, as amended.  [attributeSelector key f] matches [n] if and only
    if [n] is an element node with at least one attribute whose key is
    equal, byte for byte, to [key] with its letters [A]-[Z] lowercased and
    whose value satisfies [f].  Only the selector's key is folded: the keys
    stored in the node are compared as they are.  A non-element node never
    matches and any one of several attributes sharing the key suffices. *)
Theorem attributeSelector_spec key (f : string -> bool) st n :
  attributeSelector key f st n = true <->
  Type_ (st n) = ElementNode /\
  exists a, In a (Attr (st n)) /\
            Key a = map_string lower_byte key /\ f (Val a) = true.
Proof. rewrite attributeSelector_true, toLowerASCII_map. reflexivity. Qed.

(** C2 as stated fails on a node whose attribute key holds a capital: the
    third child of the sample document is an element with the attribute
    [ID], equal to [id] when compared case-insensitively, and
    [attributeSelector "id"] does not match it. *)
Lemma attributeSelector_uppercase_key :
  (Type_ (sample_doc 3%nat) = ElementNode /\
   exists a, In a (Attr (sample_doc 3%nat)) /\
             eq_ignoring_case (Key a) "id" /\ (fun _ : string => true) (Val a) = true)
  /\ attributeSelector "id" (fun _ => true) sample_doc 3%nat = false.
Proof.
  split; [split; [reflexivity|] | reflexivity].
  exists (mkAttribute "ID" "main"). repeat split. now left.
Qed.

(** On a node whose attribute keys are all in lower case, as those of a
    parsed document, the comparison of [attributeSelector] is the
    case-insensitive one. *)
Lemma attributeSelector_folded_keys key (f : string -> bool) st n :
  (forall a, In a (Attr (st n)) -> map_string lower_byte (Key a) = Key a) ->
  attributeSelector key f st n = true <->
  Type_ (st n) = ElementNode /\
  exists a, In a (Attr (st n)) /\
            eq_ignoring_case (Key a) key /\ f (Val a) = true.
Proof.
  intros Hlow. rewrite attributeSelector_true, toLowerASCII_map.
  unfold eq_ignoring_case.
  split; intros (He & a & Hin & Hk & Hf); split; auto; exists a;
    repeat split; auto.
  - rewrite (Hlow a Hin). exact Hk.
  - rewrite <- (Hlow a Hin). exact Hk.
Qed.

(** C3, as amended.  For a non-empty [val],
    [attributeIncludesSelector key val] matches [n] if and only if [n] is
    an element with an attribute, of the key [attributeSelector] looks for,
    whose value split on space, tab, CR, LF and form feed has an element
    equal to [val]; and the empty value does not include [val]. *)
Theorem attributeIncludesSelector_spec key val st n :
  val <> EmptyString ->
  (attributeIncludesSelector key val st n = true <->
   Type_ (st n) = ElementNode /\
   exists a, In a (Attr (st n)) /\ Key a = toLowerASCII key /\
             In val (split_any separators (Val a)))
  /\ includes_loop val EmptyString = false.
Proof.
  intros Hval. split; [|reflexivity].
  unfold attributeIncludesSelector. rewrite attributeSelector_true.
  split; intros (He & a & Hin & Hk & Hv); split; auto; exists a;
    repeat split; auto; now apply includes_loop_split.
Qed.

Lemma attributeIncludesSelector_spec_witness :
  "b"%string <> EmptyString /\
  ((attributeIncludesSelector "CLASS" "b" sample_doc 1%nat = true <->
    Type_ (sample_doc 1%nat) = ElementNode /\
    exists a, In a (Attr (sample_doc 1%nat)) /\ Key a = toLowerASCII "CLASS" /\
              In "b"%string (split_any separators (Val a)))
   /\ includes_loop "b" EmptyString = false).
Proof.
  split; [discriminate|].
  apply (attributeIncludesSelector_spec "CLASS" "b" sample_doc 1%nat).
  discriminate.
Defined.

(** C3 as stated fails for the empty [val].  The value ["item "] splits
    into ["item"] and the empty string, yet the selector does not match
    it; and read as a list of words, [" menu"] has no empty word, yet the
    selector matches it. *)
Lemma attributeIncludesSelector_empty_val :
  (In EmptyString (split_any separators "item ") /\
   attributeIncludesSelector "class" "" sample_doc 8%nat = false)
  /\
  (~ In EmptyString (words separators " menu") /\
   attributeIncludesSelector "class" "" sample_doc 7%nat = true).
Proof.
  repeat split.
  - simpl. tauto.
  - simpl. intros [H | []]. discriminate.
Qed.

(** C6.  [attributeDashmatchSelector key val] matches [n] if and only if
    [n] is an element with an attribute, of the key [attributeSelector]
    looks for, whose value is [val], or is longer than [val], starts with
    [val] and has [-] as its next byte. *)
Theorem attributeDashmatchSelector_spec key val st n :
  attributeDashmatchSelector key val st n = true <->
  Type_ (st n) = ElementNode /\
  exists a, In a (Attr (st n)) /\ Key a = toLowerASCII key /\
    (Val a = val \/
     (String.length val < String.length (Val a))%nat /\
     starts_with (Val a) val /\
     byte_at (Val a) (GoInt.strlen val) = Some "-"%char).
Proof.
  unfold attributeDashmatchSelector. rewrite attributeSelector_true.
  split; intros (He & a & Hin & Hk & Hv); split; auto; exists a;
    repeat split; auto; now apply dashmatch_true.
Qed.

(** ** Negation *)

(** C8.  [negatedSelector m] matches a node, of whatever kind and with or
    without a parent, if and only if [m] does not match it. *)
Theorem negatedSelector_complement (m : Selector) st n :
  matches (negatedSelector m) st n <-> ~ matches m st n.
Proof.
  unfold matches, negatedSelector. destruct (m st n); simpl; split;
    congruence.
Qed.

(** ** Structural selectors *)

Lemma nthChildSelector_rule st n (a b : Z) last ofType :
  siblings_wf st n ->
  nthChildSelector a b last ofType st n = true <->
  at_position st n last ofType (nth_rule a b).
Proof.
  intros Hwf. unfold nthChildSelector, at_position.
  destruct (negb (NodeType_eqb (Type_ (st n)) ElementNode)) eqn:E.
  { split; [discriminate|]. intros [H _].
    apply not_element_false in H. congruence. }
  apply not_element_false in E.
  destruct (Parent (st n)) as [parent|] eqn:Hp.
  2:{ split; [discriminate | intros (_ & p & i & H & _); discriminate]. }
  destruct (Hwf parent Hp) as [Hlen Hocc].
  rewrite (nthChild_loop_spec st n last ofType _ (-1) 0)
    by (auto; lia).
  cbn zeta. unfold position, sibling_count, counted_children.
  set (sibs := filter (counted st n ofType) (Child (st parent))).
  pose proof (len_filter_le (counted st n ofType) (Child (st parent)))
    as Hle. fold sibs in Hle.
  destruct (position_in n sibs) as [k|] eqn:Hk.
  - pose proof (position_in_bounds _ _ _ Hk) as Hb.
    assert (Htest :
      nthChild_test a b last (0 + k)
        (if last then 0 + GoInt.len sibs else 0 + k) = true <->
      nth_rule a b (if last then GoInt.len sibs - k + 1 else k)).
    { rewrite nthChild_test_rule. destruct last; rewrite !Z.add_0_l.
      - rewrite sub_in_range, add_in_range;
          unfold GoInt.in_range, GoInt.min_int;
          unfold GoInt.max_int in *; try lia. reflexivity.
      - reflexivity. }
    replace (0 + k =? -1) with false by (symmetry; apply Z.eqb_neq; lia).
    rewrite Htest. split.
    + intros H. split; [exact E|]. exists parent, k. fold sibs. auto.
    + intros (_ & p & i & [= <-] & Hi & H). fold sibs in Hi, H.
      rewrite Hk in Hi. injection Hi as <-. exact H.
  - simpl. split; [discriminate|].
    intros (_ & p & i & [= <-] & Hi & _). fold sibs in Hi.
    rewrite Hk in Hi. discriminate.
Qed.

(** C1, as amended.  For a node [n] listed at most once by its parent,
    [nthChildSelector a b last ofType] matches [n] if and only if [n] is
    an element node with a parent and its 1-based position [i] among the
    parent's element children (those of the same name when [ofType];
    mirrored to [count - i + 1] when [last]) satisfies: [i - b == 0] when
    [a == 0], and otherwise [(i - b) % a == 0] and [(i - b) / a >= 0], in
    the arithmetic of [int].  When [i - b] cannot overflow, that is when
    [b] exceeds the smallest [int] by more than the number of children,
    this says that the position is [a*k + b] for some [k >= 0]. *)
Theorem nthChildSelector_position st n (a b : Z) last ofType :
  siblings_wf st n ->
  (nthChildSelector a b last ofType st n = true <->
   at_position st n last ofType (nth_rule a b))
  /\
  (offset_in_range st n b ->
   (nthChildSelector a b last ofType st n = true <->
    at_position st n last ofType (reachable a b))).
Proof.
  intros Hwf. split; [apply nthChildSelector_rule, Hwf|]. intros Hoff.
  rewrite (nthChildSelector_rule st n a b last ofType Hwf).
  unfold at_position.
  assert (Heq : forall parent i,
    Parent (st n) = Some parent ->
    position st n ofType parent = Some i ->
    let i' := if last then sibling_count st n ofType parent - i + 1 else i in
    nth_rule a b i' <-> reachable a b i').
  { intros parent i Hp Hi i'. apply nth_rule_reachable.
    specialize (Hoff parent Hp).
    pose proof (position_in_bounds _ _ _ Hi) as Hb.
    pose proof (len_filter_le (counted st n ofType) (Child (st parent))).
    unfold sibling_count, counted_children in *.
    unfold GoInt.min_int, GoInt.max_int in *.
    subst i'. destruct last; lia. }
  split; intros (He & parent & i & Hp & Hi & H); split; auto;
    exists parent, i; repeat split; auto; now apply (Heq parent i Hp Hi).
Qed.

Lemma siblings_wf_sample (n : ptr) : siblings_wf sample_doc n.
Proof.
  intros parent _. unfold GoInt.len, GoInt.max_int.
  assert (Hlen : (List.length (Child (sample_doc parent)) <= 7)%nat).
  { do 10 (destruct parent as [|parent]; [simpl; lia|]). simpl. lia. }
  split; [lia|].
  do 10 (destruct parent as [|parent];
         [do 10 (destruct n as [|n]; [simpl; lia|]); simpl; lia|]).
  simpl. lia.
Qed.

Lemma nthChildSelector_position_witness :
  siblings_wf sample_doc 4%nat /\
  offset_in_range sample_doc 4%nat 1 /\
  (nthChildSelector 2 1 true false sample_doc 4%nat = true <->
   at_position sample_doc 4%nat true false (nth_rule 2 1)) /\
  (nthChildSelector 2 1 true false sample_doc 4%nat = true <->
   at_position sample_doc 4%nat true false (reachable 2 1)).
Proof.
  assert (Hoff : offset_in_range sample_doc 4%nat 1).
  { intros parent [= <-]. unfold GoInt.len, GoInt.min_int, GoInt.max_int.
    simpl. lia. }
  split; [apply siblings_wf_sample|]. split; [exact Hoff|].
  destruct (nthChildSelector_position sample_doc 4%nat 2 1 true false
              (siblings_wf_sample 4%nat)) as [Hrule Hreach].
  split; [exact Hrule | exact (Hreach Hoff)].
Defined.

(** C1 as stated fails in two places.

    When [i - b] overflows: the first child of the sample document is at
    position 1, which is [1*k + b] for the smallest [int] as [b] and
    [k = 2^63 + 1]; yet [nthChildSelector 1 b] does not match it, because
    [1 - b] wraps to a negative number.

    When the parent lists [n] twice: the item of [twice_doc] is matched
    as the first child and as the first child from the end of two, which
    no single position [i] with its mirror [2 - i + 1] accounts for. *)
Lemma nthChildSelector_position_fails :
  (siblings_wf sample_doc 1%nat /\
   at_position sample_doc 1%nat false false (reachable 1 GoInt.min_int) /\
   nthChildSelector 1 GoInt.min_int false false sample_doc 1%nat = false)
  /\
  (nthChildSelector 0 1 false false twice_doc 1%nat = true /\
   nthChildSelector 0 1 true false twice_doc 1%nat = true /\
   sibling_count twice_doc 1%nat false 0%nat = 2 /\
   forall i, ~ (nth_rule 0 1 i /\ nth_rule 0 1 (2 - i + 1))).
Proof.
  split.
  - split; [apply siblings_wf_sample|]. split; [|reflexivity].
    split; [reflexivity|]. exists 0%nat, 1. repeat split.
    exists (2 ^ 63 + 1). unfold GoInt.min_int. lia.
  - split; [reflexivity|]. split; [reflexivity|]. split; [reflexivity|].
    intros i [H1 H2]. unfold nth_rule in H1, H2. cbv zeta in H1, H2.
    change (0 =? 0) with true in H1, H2. cbv iota in H1, H2.
    unfold GoInt.sub, GoInt.wrap in H1, H2.
    Z.to_euclidean_division_equations. lia.
Qed.

(** C7.  [onlyChildSelector ofType] matches [n] if and only if [n] is an
    element node with a parent and exactly one child of the parent is an
    element (of the same name as [n] when [ofType]); text, comment and
    other non-element children are not counted. *)
Theorem onlyChildSelector_count st n ofType :
  onlyChildSelector ofType st n = true <->
  Type_ (st n) = ElementNode /\
  exists parent, Parent (st n) = Some parent /\
                 sibling_count st n ofType parent = 1.
Proof.
  unfold onlyChildSelector.
  destruct (negb (NodeType_eqb (Type_ (st n)) ElementNode)) eqn:E.
  { split; [discriminate|]. intros [H _].
    apply not_element_false in H. congruence. }
  apply not_element_false in E.
  destruct (Parent (st n)) as [parent|].
  2:{ split; [discriminate | intros (_ & p & H & _); discriminate]. }
  rewrite onlyChild_loop_spec by lia. cbn zeta.
  unfold sibling_count, counted_children.
  set (k := GoInt.len (filter (counted st n ofType) (Child (st parent)))).
  rewrite Z.add_0_l.
  destruct (k >? 1) eqn:Hk.
  - split; [discriminate|]. intros (_ & p & [= <-] & H). fold k in H. lia.
  - rewrite Z.eqb_eq. split.
    + intros H. split; [exact E|]. exists parent. auto.
    + intros (_ & p & [= <-] & H). exact H.
Qed.

(** C9.  On an element node [n] whose parent does not list [n] among its
    children, [nthChildSelector a b last ofType] returns [false]: the scan
    ends with [i == -1]. *)
Theorem nthChildSelector_detached st n parent (a b : Z) last ofType :
  Type_ (st n) = ElementNode ->
  Parent (st n) = Some parent ->
  ~ In n (Child (st parent)) ->
  nthChildSelector a b last ofType st n = false.
Proof.
  intros He Hp Hn. unfold nthChildSelector.
  rewrite He, Hp. simpl.
  pose proof (nthChild_loop_absent st n last ofType _ Hn (-1) 0) as Hi.
  destruct (nthChild_loop st n last ofType (Child (st parent)) (-1) 0)
    as [i count].
  simpl in Hi. subst i. reflexivity.
Qed.

Lemma nthChildSelector_detached_witness :
  Type_ (detached_doc 2%nat) = ElementNode /\
  Parent (detached_doc 2%nat) = Some 0%nat /\
  ~ In 2%nat (Child (detached_doc 0%nat)) /\
  nthChildSelector 0 1 true false detached_doc 2%nat = false.
Proof.
  assert (Hn : ~ In 2%nat (Child (detached_doc 0%nat))).
  { simpl. intros [H | []]. discriminate. }
  split; [reflexivity|]. split; [reflexivity|]. split; [exact Hn|].
  apply (nthChildSelector_detached detached_doc 2%nat 0%nat 0 1 true false);
    [reflexivity | reflexivity | exact Hn].
Defined.

(** C10, as amended.  On a node that its parent lists at most once, and
    with [last] false, [nthChildSelector], which leaves the loop as soon as
    it finds [n], returns what the naive variant returns, whose loop has
    no [break] and computes the full count: the count is only consulted
    when [last] is true, and the position is assigned once. *)
Theorem nthChildSelector_break_naive st n (a b : Z) ofType :
  listed_at_most_once st n ->
  nthChildSelector a b false ofType st n =
  nthChildSelector_naive a b false ofType st n.
Proof.
  intros Honce. unfold nthChildSelector, nthChildSelector_naive.
  destruct (negb (NodeType_eqb (Type_ (st n)) ElementNode)); [reflexivity|].
  destruct (Parent (st n)) as [parent|] eqn:Hp; [|reflexivity].
  pose proof (nthChild_loop_naive st n ofType (Child (st parent))
                (Honce parent Hp) (-1) 0) as Hi.
  destruct (nthChild_loop st n false ofType (Child (st parent)) (-1) 0)
    as [i count].
  destruct (naive_loop st n ofType (Child (st parent)) (-1) 0)
    as [i' count'].
  simpl in Hi. subst i'. reflexivity.
Qed.

Lemma nthChildSelector_break_naive_witness :
  listed_at_most_once sample_doc 4%nat /\
  nthChildSelector 2 1 false true sample_doc 4%nat =
  nthChildSelector_naive 2 1 false true sample_doc 4%nat.
Proof.
  assert (H : listed_at_most_once sample_doc 4%nat).
  { intros parent Hp. apply (siblings_wf_sample 4%nat parent Hp). }
  split; [exact H|].
  apply (nthChildSelector_break_naive sample_doc 4%nat 2 1 true H).
Defined.

(** C10 as stated fails on a node that its parent lists twice: the item
    of [twice_doc] is found first at position 1, where the source leaves
    the loop and [nthChildSelector 0 1] matches, while the loop without
    the [break] goes on to the second occurrence, records position 2, and
    does not match. *)
Lemma nthChildSelector_break_naive_twice :
  nthChildSelector 0 1 false false twice_doc 1%nat = true /\
  nthChildSelector_naive 0 1 false false twice_doc 1%nat = false.
Proof. split; reflexivity. Qed.

(** The scan of [nthChildSelector] for [last], which has no [break],
    finds the same position when the parent lists [n] at most once. *)
Lemma nthChild_loop_no_break st n ofType (cs : list ptr) :
  GoInt.len cs <= GoInt.max_int ->
  (count_occ Nat.eq_dec cs n <= 1)%nat ->
  fst (nthChild_loop st n true ofType cs (-1) 0) =
  fst (nthChild_loop st n false ofType cs (-1) 0).
Proof.
  intros Hlen Hocc.
  rewrite !(nthChild_loop_spec st n _ ofType cs (-1) 0) by (auto; lia).
  cbn zeta. destruct (position_in n _); reflexivity.
Qed.

(** ** [MatchAll] *)

(** C5.  On a finite tree rooted at [n], [MatchAll s n] returns: with
    enough fuel for the depth of the tree it yields one result, which is
    [n] itself when [s] matches it, followed by the results of [MatchAll]
    on the children of [n], in their order.  The result lists no node
    twice, and a matched node stands before each of its matched
    descendants. *)
Theorem MatchAll_preorder (s : Selector) st n :
  is_tree st n ->
  exists fuel0 result subs,
    (forall fuel, (fuel0 <= fuel)%nat -> MatchAll fuel s st n = Some result) /\
    Forall2 (fun c r => forall fuel, (fuel0 <= fuel)%nat ->
                                     MatchAll fuel s st c = Some r)
            (Child (st n)) subs /\
    result = (if s st n then [n] else []) ++ List.concat subs /\
    (s st n = true -> hd_error result = Some n) /\
    NoDup result /\
    (forall m d, In m result -> In d result -> descendant st m d ->
                 precedes m d result).
Proof.
  intros (l & Hpre & Hnd).
  destruct (proj1 (MatchAll_filter s st) n l Hpre) as (f1 & Hres).
  pose proof (proj1 (preorder_precedes st) n l Hpre) as Hbefore.
  inversion Hpre as [n' l' Hforest]. subst n' l.
  destruct (proj2 (MatchAll_filter s st) _ _ Hforest)
    as (f2 & subs & Hsubs & Hcat).
  exists (Nat.max f1 f2), (filter (s st) (n :: l')), subs.
  split; [intros fuel Hf; apply Hres; lia|].
  split; [apply (forest_results_mono s st f2); [lia | exact Hsubs]|].
  split; [simpl; rewrite Hcat; destruct (s st n); reflexivity|].
  split; [intros Hs; simpl; rewrite Hs; reflexivity|].
  split; [apply NoDup_filter, Hnd|].
  intros m d Hm Hd Hdesc.
  apply filter_In in Hm as [Hm Hsm]. apply filter_In in Hd as [_ Hsd].
  apply precedes_filter; auto.
Qed.

Lemma sample_doc_tree : is_tree sample_doc 0%nat.
Proof.
  exists [0; 1; 2; 3; 4; 5; 6; 7; 8; 9]%nat. split.
  - apply preorder_node. simpl Child.
    apply (preorder_cons sample_doc 1%nat _ [1%nat]);
      [apply preorder_node, preorder_nil|].
    apply (preorder_cons sample_doc 2%nat _ [2%nat]);
      [apply preorder_node, preorder_nil|].
    apply (preorder_cons sample_doc 3%nat _ [3%nat]);
      [apply preorder_node, preorder_nil|].
    apply (preorder_cons sample_doc 4%nat _ [4%nat]);
      [apply preorder_node, preorder_nil|].
    apply (preorder_cons sample_doc 5%nat _ [5%nat]);
      [apply preorder_node, preorder_nil|].
    apply (preorder_cons sample_doc 6%nat _ [6; 7; 8]%nat [9%nat]).
    + apply preorder_node. simpl Child.
      apply (preorder_cons sample_doc 7%nat _ [7; 8]%nat []).
      * apply preorder_node. simpl Child.
        apply (preorder_cons sample_doc 8%nat _ [8%nat] []);
          [apply preorder_node, preorder_nil | apply preorder_nil].
      * apply preorder_nil.
    + apply (preorder_cons sample_doc 9%nat _ [9%nat] []);
        [apply preorder_node, preorder_nil | apply preorder_nil].
  - repeat (apply NoDup_cons; [simpl; lia|]). apply NoDup_nil.
Qed.

Lemma MatchAll_preorder_witness :
  is_tree sample_doc 0%nat /\
  exists fuel0 result subs,
    (forall fuel, (fuel0 <= fuel)%nat ->
       MatchAll fuel (attributeExistsSelector "class") sample_doc 0%nat
       = Some result) /\
    Forall2 (fun c r => forall fuel, (fuel0 <= fuel)%nat ->
               MatchAll fuel (attributeExistsSelector "class") sample_doc c
               = Some r)
            (Child (sample_doc 0%nat)) subs /\
    result = (if attributeExistsSelector "class" sample_doc 0%nat
              then [0%nat] else []) ++ List.concat subs /\
    (attributeExistsSelector "class" sample_doc 0%nat = true ->
     hd_error result = Some 0%nat) /\
    NoDup result /\
    (forall m d, In m result -> In d result -> descendant sample_doc m d ->
                 precedes m d result).
Proof.
  split; [apply sample_doc_tree|].
  apply (MatchAll_preorder (attributeExistsSelector "class") sample_doc 0%nat).
  apply sample_doc_tree.
Defined.

(** ** [Compile] *)

(** C4.  Let the parser, started at offset 0, stop at [p] and return
    [(compiled, err)].  [Compile] succeeds, returning the parser's matcher
    and no error, exactly when the parser returned no error and consumed
    the whole input; when the parser returned no error and bytes are left
    over, [Compile] returns an error made of the selector text and of the
    number of these bytes; and whenever [Compile] returns an error it
    returns no matcher. *)
Theorem Compile_result
    (parse : parser.t -> parser.t * (option Selector * option error))
    (sel : string) (p : parser.t) (compiled : option Selector)
    (err : option error) :
  parse (parser.mk sel 0) = (p, (compiled, err)) ->
  (snd (Compile parse sel) = None <->
   err = None /\ GoInt.strlen sel <= parser.i p) /\
  (snd (Compile parse sel) = None -> fst (Compile parse sel) = compiled) /\
  (err = None -> parser.i p < GoInt.strlen sel ->
   Compile parse sel =
   (None,
    Some (Errorf "parsing %q: %d bytes left over"
            [ArgString sel;
             ArgInt (GoInt.sub (GoInt.strlen sel) (parser.i p))]))) /\
  (forall e, err = Some e -> Compile parse sel = (None, Some e)) /\
  (snd (Compile parse sel) <> None -> fst (Compile parse sel) = None).
Proof.
  intros Hparse. unfold Compile. rewrite Hparse.
  destruct err as [e|].
  - simpl. repeat split; try congruence; intros [? ?]; congruence.
  - destruct (parser.i p <? GoInt.strlen sel) eqn:L.
    + apply Z.ltb_lt in L. simpl.
      repeat split; try congruence; try lia.
    + apply Z.ltb_ge in L. simpl.
      repeat split; try congruence; try lia.
Qed.

Lemma Compile_result_witness :
  letters_parser (parser.mk "div[" 0)
  = (parser.mk "div[" 3, (Some (fun _ _ => true), None)) /\
  (snd (Compile letters_parser "div[") = None <->
   None = None :> option error /\
   GoInt.strlen "div[" <= parser.i (parser.mk "div[" 3)) /\
  Compile letters_parser "div[" =
  (None,
   Some (Errorf "parsing %q: %d bytes left over"
           [ArgString "div[";
            ArgInt (GoInt.sub (GoInt.strlen "div[")
                      (parser.i (parser.mk "div[" 3)))])) /\
  (snd (Compile letters_parser "div[") <> None ->
   fst (Compile letters_parser "div[") = None).
Proof.
  split; [reflexivity|].
  destruct (Compile_result letters_parser "div[" (parser.mk "div[" 3)
              (Some (fun _ _ => true)) None eq_refl)
    as (Hok & _ & Hleft & _ & Hnil).
  split; [exact Hok|]. split; [|exact Hnil].
  apply Hleft; [reflexivity|]. unfold GoInt.strlen. simpl. lia.
Defined.

(** The count in the error of [Compile] is the number of bytes after the
    cursor. *)
Lemma leftover_count (sel : string) (i : Z) :
  GoInt.strlen sel <= GoInt.max_int -> 0 <= i <= GoInt.max_int ->
  GoInt.sub (GoInt.strlen sel) i = GoInt.strlen sel - i.
Proof.
  intros Hlen Hi. apply sub_in_range.
  unfold GoInt.in_range, GoInt.strlen, GoInt.min_int, GoInt.max_int in *.
  lia.
Qed.

(* ===================================================================== *)
(** * Further properties of the selectors *)
(* ===================================================================== *)

(** ** Case folding *)

Lemma lower_byte_fixed (c : ascii) : lower_byte c = c <-> is_upper c = false.
Proof.
  destruct c as [[] [] [] [] [] [] [] []]; vm_compute; split; congruence.
Qed.

Lemma lower_byte_not_upper (c : ascii) : is_upper (lower_byte c) = false.
Proof. destruct c as [[] [] [] [] [] [] [] []]; reflexivity. Qed.

Lemma has_capital_lower (s : string) :
  has_capital (map_string lower_byte s) = false.
Proof.
  induction s as [|c s IH]; simpl; [reflexivity|].
  now rewrite lower_byte_not_upper, IH.
Qed.

Lemma map_lower_fixed (s : string) :
  map_string lower_byte s = s <-> has_capital s = false.
Proof.
  induction s as [|c s IH]; simpl; [tauto|].
  rewrite orb_false_iff, <- IH, <- lower_byte_fixed. split.
  - intros [= Hc Hs]. auto.
  - intros [-> ->]. reflexivity.
Qed.

(** X1.  [toLowerASCII s] has the length of [s], and its byte at each
    index is the byte of [s] there, moved from [A]-[Z] to [a]-[z] when it
    is a capital and unchanged otherwise. *)
Theorem toLowerASCII_bytes (s : string) :
  String.length (toLowerASCII s) = String.length s /\
  forall i, String.get i (toLowerASCII s)
            = option_map (fun c => if is_upper c then add_case_offset c else c)
                (String.get i s).
Proof.
  rewrite toLowerASCII_map. split.
  - induction s as [|c s IH]; simpl; [reflexivity | now rewrite IH].
  - induction s as [|c s IH]; intros i; simpl; [reflexivity|].
    destruct i as [|i]; [reflexivity | apply IH].
Qed.

(** X2.  [toLowerASCII] returns its argument unchanged exactly when the
    argument has no byte in [A]-[Z]. *)
Theorem toLowerASCII_unchanged (s : string) :
  toLowerASCII s = s <-> has_capital s = false.
Proof. rewrite toLowerASCII_map. apply map_lower_fixed. Qed.

(** X3.  The result of [toLowerASCII] has no byte in [A]-[Z], and folding
    it again changes nothing. *)
Theorem toLowerASCII_folded (s : string) :
  has_capital (toLowerASCII s) = false /\
  toLowerASCII (toLowerASCII s) = toLowerASCII s.
Proof.
  rewrite !toLowerASCII_map. split; [apply has_capital_lower|].
  apply map_lower_fixed, has_capital_lower.
Qed.

(** ** [typeSelector] *)

Lemma typeSelector_true (tag : string) st n :
  typeSelector tag st n = true <->
  Type_ (st n) = ElementNode /\ Data (st n) = map_string lower_byte tag.
Proof.
  unfold typeSelector. rewrite toLowerASCII_map, andb_true_iff.
  rewrite NodeType_eqb_eq, String.eqb_eq. reflexivity.
Qed.

(** X4.  Two tags that are equal up to the case of their ASCII letters
    give type selectors that agree on every node. *)
Theorem typeSelector_case_insensitive (tag tag' : string) st n :
  eq_ignoring_case tag tag' ->
  typeSelector tag st n = typeSelector tag' st n.
Proof.
  intros H. unfold typeSelector. rewrite !toLowerASCII_map.
  unfold eq_ignoring_case in H. rewrite H. reflexivity.
Qed.

Lemma typeSelector_case_insensitive_witness :
  eq_ignoring_case "DIV" "div" /\
  typeSelector "DIV" sample_doc 3%nat = typeSelector "div" sample_doc 3%nat.
Proof.
  split; [reflexivity|].
  apply (typeSelector_case_insensitive "DIV" "div" sample_doc 3%nat).
  reflexivity.
Defined.

(** X5.  The name stored in the node is not folded: a node whose name has
    a byte in [A]-[Z] is matched by no type selector. *)
Theorem typeSelector_capital_name (tag : string) st n :
  has_capital (Data (st n)) = true ->
  typeSelector tag st n = false.
Proof.
  intros H. destruct (typeSelector tag st n) eqn:E; [|reflexivity].
  apply typeSelector_true in E as [_ E].
  rewrite E, has_capital_lower in H. discriminate.
Qed.

Lemma typeSelector_capital_name_witness :
  has_capital (Data (capitals_doc 0%nat)) = true /\
  typeSelector "DIV" capitals_doc 0%nat = false.
Proof.
  split; [reflexivity|].
  apply (typeSelector_capital_name "DIV" capitals_doc 0%nat). reflexivity.
Defined.

(** ** Strings *)

Lemma append_length (s t : string) :
  String.length (s ++ t) = (String.length s + String.length t)%nat.
Proof. induction s as [|c s IH]; simpl; [reflexivity | now rewrite IH]. Qed.

Lemma append_assoc (s t u : string) :
  ((s ++ t) ++ u)%string = (s ++ t ++ u)%string.
Proof. induction s as [|c s IH]; simpl; [reflexivity | now rewrite IH]. Qed.

Lemma append_empty_r (s : string) : (s ++ "")%string = s.
Proof. induction s as [|c s IH]; simpl; [reflexivity | now rewrite IH]. Qed.

Lemma drop_bytes_app (front val : string) :
  drop_bytes (String.length front) (front ++ val) = val.
Proof. induction front as [|c front IH]; simpl; [now destruct val | exact IH]. Qed.

Lemma HasPrefix_true (s val : string) :
  HasPrefix s val = true <-> starts_with s val.
Proof.
  unfold HasPrefix. rewrite andb_true_iff, slice_to_prefix, Z.geb_le.
  split; [tauto|]. intros H. split; [|exact H].
  destruct H as (rest & ->). unfold GoInt.strlen.
  rewrite append_length. lia.
Qed.

Lemma HasSuffix_true (s val : string) :
  HasSuffix s val = true <-> ends_with s val.
Proof.
  unfold HasSuffix, ends_with, slice_from, GoInt.strlen.
  rewrite andb_true_iff, Z.geb_le, String.eqb_eq. split.
  - intros [Hlen H].
    set (k := Z.to_nat (Z.of_nat (String.length s)
                        - Z.of_nat (String.length val))) in *.
    exists (take_bytes k s).
    pose proof (take_drop_bytes k s) as T. rewrite H in T.
    symmetry. exact T.
  - intros (front & ->). rewrite append_length. split; [lia|].
    replace (Z.to_nat _) with (String.length front) by lia.
    apply drop_bytes_app.
Qed.

Lemma Index_lower (s val : string) : Index s val = -1 \/ 0 <= Index s val.
Proof.
  induction s as [|c s IH]; simpl.
  - destruct (HasPrefix "" val); [right; lia | now left].
  - destruct (HasPrefix (String c s) val); [right; lia|].
    destruct (Index s val =? -1) eqn:E; [now left | right].
    apply Z.eqb_neq in E. lia.
Qed.

Lemma Contains_true (s val : string) :
  Contains s val = true <-> occurs_in s val.
Proof.
  unfold Contains, occurs_in. rewrite Z.geb_le. split.
  - induction s as [|c s IH]; simpl.
    + destruct (HasPrefix "" val) eqn:P; [|lia]. intros _.
      apply HasPrefix_true in P as (rest & ->). now exists ""%string, rest.
    + destruct (HasPrefix (String c s) val) eqn:P.
      * intros _. apply HasPrefix_true in P as (rest & ->).
        now exists ""%string, rest.
      * destruct (Index s val =? -1) eqn:E; [lia|]. intros _.
        apply Z.eqb_neq in E.
        destruct (Index_lower s val) as [H|H]; [contradiction|].
        destruct (IH H) as (front & rest & ->).
        now exists (String c front), rest.
  - intros (front & rest & ->).
    induction front as [|c front IH].
    + simpl append.
      assert (P : HasPrefix (val ++ rest) val = true)
        by (apply HasPrefix_true; now exists rest).
      destruct (val ++ rest)%string; simpl; rewrite P; lia.
    + simpl.
      destruct (HasPrefix (String c (front ++ val ++ rest)) val); [lia|].
      destruct (Index (front ++ val ++ rest) val =? -1) eqn:E; [|lia].
      apply Z.eqb_eq in E. lia.
Qed.

(** ** Pieces of a value *)

Lemma split_any_cons chars (s : string) :
  exists f fs, split_any chars s = f :: fs /\ starts_with s f.
Proof.
  induction s as [|c s (f & fs & IH & (rest & Hr))]; simpl.
  - exists ""%string, []. split; [reflexivity | now exists ""%string].
  - destruct (mem_byte c chars).
    + exists ""%string, (split_any chars s).
      split; [reflexivity | now exists (String c s)].
    + rewrite IH. exists (String c f), fs. split; [reflexivity|].
      exists rest. simpl. now rewrite <- Hr.
Qed.

Lemma split_any_occurs chars (s f : string) :
  In f (split_any chars s) -> occurs_in s f.
Proof.
  revert f. induction s as [|c s IH]; simpl; intros f.
  - intros [<- | []]. now exists ""%string, ""%string.
  - destruct (mem_byte c chars).
    + intros [<- | H]; [now exists ""%string, (String c s)|].
      destruct (IH f H) as (front & rest & ->).
      now exists (String c front), rest.
    + destruct (split_any_cons chars s) as (g & gs & Hg & (rest & Hr)).
      rewrite Hg in *. intros [<- | H].
      * exists ""%string, rest. simpl. now rewrite <- Hr.
      * destruct (IH f (or_intror H)) as (front & rest' & ->).
        now exists (String c front), rest'.
Qed.

Lemma split_any_clean chars (s f : string) :
  In f (split_any chars s) -> has_any chars f = false.
Proof.
  revert f. induction s as [|c s IH]; simpl; intros f.
  - intros [<- | []]. reflexivity.
  - destruct (mem_byte c chars) eqn:M.
    + intros [<- | H]; [reflexivity | now apply IH].
    + destruct (split_any chars s) as [|g gs].
      * intros [<- | []]. simpl. now rewrite M.
      * intros [<- | H].
        -- simpl. rewrite M. apply IH. now left.
        -- apply IH. now right.
Qed.

(** The loop compares [val] with every piece but the last, and with the
    last one when what is left of the value is not empty. *)
Lemma includes_loop_pieces val (s : string) :
  includes_loop val s = true <->
  In val (removelast (split_any separators s)) \/
  (val <> EmptyString /\ last (split_any separators s) EmptyString = val).
Proof.
  funelim (includes_loop val s).
  - clear H Heqcall. apply String.eqb_eq in e. subst s. simpl.
    split; [discriminate | intros [[] | [H <-]]; congruence].
  - clear H H0 Heqcall. apply Z.eqb_eq in e0.
    apply String.eqb_neq in e.
    rewrite (split_any_none _ _ e0). rewrite String.eqb_eq. simpl.
    split; [intros <-; right; auto | intros [[] | [_ H]]; exact H].
  - clear H0 H1 Heqcall e. apply Z.eqb_neq in Hfound.
    rewrite (split_any_some _ _ Hfound).
    destruct (split_any_cons separators
                (slice_from s (IndexAny s separators + 1)))
      as (g & gs & Hg & _).
    rewrite Hg in *.
    change (removelast (?x :: g :: gs)) with (x :: removelast (g :: gs)).
    change (last (?x :: g :: gs) ?d) with (last (g :: gs) d).
    simpl In.
    destruct (String.eqb (slice_to s (IndexAny s separators)) val) eqn:E.
    + apply String.eqb_eq in E. split; [intros _; left; now left | reflexivity].
    + apply String.eqb_neq in E. rewrite H. tauto.
Qed.

(** ** The attribute selectors *)

Lemma attributeSelector_weaken key (f g : string -> bool) st n :
  (forall v, f v = true -> g v = true) ->
  attributeSelector key f st n = true -> attributeSelector key g st n = true.
Proof.
  intros Hfg. rewrite !attributeSelector_true.
  intros (He & a & Hin & Hk & Hf). split; [exact He|].
  exists a. auto.
Qed.

Lemma attributeSelector_ext key (f g : string -> bool) st n :
  (forall v, f v = g v) ->
  attributeSelector key f st n = attributeSelector key g st n.
Proof.
  intros Hfg. unfold attributeSelector.
  destruct (negb _); [reflexivity|].
  induction (Attr (st n)) as [|a rest IH]; simpl; [reflexivity|].
  now rewrite Hfg, IH.
Qed.

(** X6.  The keys stored in the node are not folded: a node all of whose
    attribute keys have a byte in [A]-[Z] is matched by no attribute
    selector, whatever the key and the predicate on the value. *)
Theorem attributeSelector_capital_keys key (f : string -> bool) st n :
  (forall a, In a (Attr (st n)) -> has_capital (Key a) = true) ->
  attributeSelector key f st n = false.
Proof.
  intros Hcap. destruct (attributeSelector key f st n) eqn:E; [|reflexivity].
  apply attributeSelector_true in E as (_ & a & Hin & Hk & _).
  specialize (Hcap a Hin).
  rewrite Hk, toLowerASCII_map, has_capital_lower in Hcap. discriminate.
Qed.

Lemma attributeSelector_capital_keys_witness :
  (forall a, In a (Attr (capitals_doc 0%nat)) -> has_capital (Key a) = true) /\
  attributeSelector "class" (fun _ => true) capitals_doc 0%nat = false.
Proof.
  assert (H : forall a, In a (Attr (capitals_doc 0%nat)) ->
                        has_capital (Key a) = true).
  { intros a [<- | []]. reflexivity. }
  split; [exact H|].
  apply (attributeSelector_capital_keys "class" (fun _ => true)
           capitals_doc 0%nat H).
Defined.

(** X7.  A node matched on the conjunction of two predicates on the value
    is matched by the intersection of the two attribute selectors, and by
    [attributeExistsSelector] for the key. *)
Theorem attributeSelector_conjunction key (f g : string -> bool) st n :
  attributeSelector key (fun v => f v && g v) st n = true ->
  intersectionSelector (attributeSelector key f) (attributeSelector key g)
    st n = true /\
  attributeExistsSelector key st n = true.
Proof.
  intros H. unfold intersectionSelector, attributeExistsSelector.
  rewrite andb_true_iff. repeat split;
    apply (attributeSelector_weaken key (fun v => f v && g v)); auto;
    intros v Hv; apply andb_true_iff in Hv; tauto.
Qed.

Lemma attributeSelector_conjunction_witness :
  attributeSelector "lang"
    (fun v => HasPrefix v "en" && HasSuffix v "US") sample_doc 1%nat = true /\
  intersectionSelector
    (attributeSelector "lang" (fun v => HasPrefix v "en"))
    (attributeSelector "lang" (fun v => HasSuffix v "US"))
    sample_doc 1%nat = true /\
  attributeExistsSelector "lang" sample_doc 1%nat = true.
Proof.
  split; [reflexivity|].
  apply (attributeSelector_conjunction "lang"
           (fun v => HasPrefix v "en") (fun v => HasSuffix v "US")
           sample_doc 1%nat).
  reflexivity.
Defined.

(** X8.  [attributeEqualsSelector key val] matches [n] if and only if [n]
    is an element node that has the attribute made of the lowercased [key]
    and of [val]. *)
Theorem attributeEqualsSelector_pair key val st n :
  attributeEqualsSelector key val st n = true <->
  Type_ (st n) = ElementNode /\
  In (mkAttribute (map_string lower_byte key) val) (Attr (st n)).
Proof.
  unfold attributeEqualsSelector.
  rewrite attributeSelector_true, toLowerASCII_map. split.
  - intros (He & [k v] & Hin & Hk & Hv). simpl in Hk, Hv.
    apply String.eqb_eq in Hv. subst. auto.
  - intros (He & Hin). split; [exact He|].
    exists (mkAttribute (map_string lower_byte key) val).
    simpl. rewrite String.eqb_refl. auto.
Qed.

(** X9.  For every [val], empty or not, [attributeIncludesSelector key val]
    matches [n] if and only if [n] is an element with an attribute of the
    key whose value, split on the separators, has [val] among its elements
    other than the last, or has [val] as its last element and [val] is not
    empty: the empty element after a trailing separator, and the empty
    value, match nothing. *)
Theorem attributeIncludesSelector_pieces key val st n :
  attributeIncludesSelector key val st n = true <->
  Type_ (st n) = ElementNode /\
  exists a, In a (Attr (st n)) /\ Key a = toLowerASCII key /\
    (In val (removelast (split_any separators (Val a))) \/
     (val <> EmptyString /\
      last (split_any separators (Val a)) EmptyString = val)).
Proof.
  unfold attributeIncludesSelector. rewrite attributeSelector_true.
  split; intros (He & a & Hin & Hk & Hv); split; auto; exists a;
    repeat split; auto; now apply includes_loop_pieces.
Qed.

Lemma includes_loop_clean val (s : string) :
  includes_loop val s = true -> has_any separators val = false.
Proof.
  intros H. apply includes_loop_pieces in H.
  apply (split_any_clean separators s).
  destruct (split_any_cons separators s) as (f & fs & Hs & _).
  rewrite Hs in *.
  destruct H as [H | [_ H]].
  - destruct (exists_last (l := f :: fs) ltac:(discriminate)) as (l' & x & E).
    rewrite E in *. rewrite removelast_last in H.
    apply in_or_app. now left.
  - rewrite <- H.
    destruct (exists_last (l := f :: fs) ltac:(discriminate)) as (l' & x & E).
    rewrite E. rewrite last_last. apply in_or_app. right. now left.
Qed.

(** X10.  A [val] that holds one of the separators (space, tab, CR, LF,
    form feed) is included in no value: [attributeIncludesSelector key val]
    matches no node. *)
Theorem attributeIncludesSelector_separator key val st n :
  has_any separators val = true ->
  attributeIncludesSelector key val st n = false.
Proof.
  intros Hsep.
  destruct (attributeIncludesSelector key val st n) eqn:E; [|reflexivity].
  unfold attributeIncludesSelector in E.
  apply attributeSelector_true in E as (_ & a & _ & _ & Hv).
  apply includes_loop_clean in Hv. congruence.
Qed.

Lemma attributeIncludesSelector_separator_witness :
  has_any separators "a b" = true /\
  attributeIncludesSelector "class" "a b" sample_doc 1%nat = false.
Proof.
  split; [reflexivity|].
  apply (attributeIncludesSelector_separator "class" "a b" sample_doc 1%nat).
  reflexivity.
Defined.

(** X11.  [attributePrefixSelector key val] matches [n] if and only if [n]
    is an element with an attribute of the key whose value starts with
    [val]. *)
Theorem attributePrefixSelector_spec key val st n :
  attributePrefixSelector key val st n = true <->
  Type_ (st n) = ElementNode /\
  exists a, In a (Attr (st n)) /\ Key a = toLowerASCII key /\
            starts_with (Val a) val.
Proof.
  unfold attributePrefixSelector. rewrite attributeSelector_true.
  split; intros (He & a & Hin & Hk & Hv); split; auto; exists a;
    repeat split; auto; now apply HasPrefix_true.
Qed.

(** X12.  [attributeSuffixSelector key val] matches [n] if and only if [n]
    is an element with an attribute of the key whose value ends with
    [val]. *)
Theorem attributeSuffixSelector_spec key val st n :
  attributeSuffixSelector key val st n = true <->
  Type_ (st n) = ElementNode /\
  exists a, In a (Attr (st n)) /\ Key a = toLowerASCII key /\
            ends_with (Val a) val.
Proof.
  unfold attributeSuffixSelector. rewrite attributeSelector_true.
  split; intros (He & a & Hin & Hk & Hv); split; auto; exists a;
    repeat split; auto; now apply HasSuffix_true.
Qed.

(** X13.  [attributeSubstringSelector key val] matches [n] if and only if
    [n] is an element with an attribute of the key in whose value [val]
    occurs. *)
Theorem attributeSubstringSelector_spec key val st n :
  attributeSubstringSelector key val st n = true <->
  Type_ (st n) = ElementNode /\
  exists a, In a (Attr (st n)) /\ Key a = toLowerASCII key /\
            occurs_in (Val a) val.
Proof.
  unfold attributeSubstringSelector. rewrite attributeSelector_true.
  split; intros (He & a & Hin & Hk & Hv); split; auto; exists a;
    repeat split; auto; now apply Contains_true.
Qed.

(** X14.  A node matched by [attributeEqualsSelector key val] is matched,
    for the same key and value, by the dash-match, prefix, suffix and
    substring selectors. *)
Theorem attributeEqualsSelector_strongest key val st n :
  attributeEqualsSelector key val st n = true ->
  attributeDashmatchSelector key val st n = true /\
  attributePrefixSelector key val st n = true /\
  attributeSuffixSelector key val st n = true /\
  attributeSubstringSelector key val st n = true.
Proof.
  intros H. unfold attributeEqualsSelector in H.
  repeat split;
    apply (attributeSelector_weaken key (fun s => String.eqb s val)); auto;
    intros v Hv; apply String.eqb_eq in Hv; subst v.
  - apply dashmatch_true. now left.
  - apply HasPrefix_true. exists ""%string. symmetry. apply append_empty_r.
  - apply HasSuffix_true. now exists ""%string.
  - apply Contains_true. exists ""%string, ""%string.
    symmetry. apply append_empty_r.
Qed.

Lemma attributeEqualsSelector_strongest_witness :
  attributeEqualsSelector "LANG" "en" sample_doc 4%nat = true /\
  attributeDashmatchSelector "LANG" "en" sample_doc 4%nat = true /\
  attributePrefixSelector "LANG" "en" sample_doc 4%nat = true /\
  attributeSuffixSelector "LANG" "en" sample_doc 4%nat = true /\
  attributeSubstringSelector "LANG" "en" sample_doc 4%nat = true.
Proof.
  split; [reflexivity|].
  apply (attributeEqualsSelector_strongest "LANG" "en" sample_doc 4%nat).
  reflexivity.
Defined.

(** X15.  A node matched by [attributeDashmatchSelector key val] is
    matched by [attributePrefixSelector key val]. *)
Theorem attributeDashmatchSelector_prefix key val st n :
  attributeDashmatchSelector key val st n = true ->
  attributePrefixSelector key val st n = true.
Proof.
  apply attributeSelector_weaken. intros v Hv.
  apply HasPrefix_true. apply dashmatch_true in Hv as [-> | (_ & H & _)].
  - exists ""%string. symmetry. apply append_empty_r.
  - exact H.
Qed.

Lemma attributeDashmatchSelector_prefix_witness :
  attributeDashmatchSelector "lang" "en" sample_doc 1%nat = true /\
  attributePrefixSelector "lang" "en" sample_doc 1%nat = true.
Proof.
  split; [reflexivity|].
  apply (attributeDashmatchSelector_prefix "lang" "en" sample_doc 1%nat).
  reflexivity.
Defined.

(** X16.  A node matched by the prefix, the suffix or the includes
    selector for [key] and [val] is matched by
    [attributeSubstringSelector key val]. *)
Theorem attributeSubstringSelector_weakest key val st n :
  attributePrefixSelector key val st n = true \/
  attributeSuffixSelector key val st n = true \/
  attributeIncludesSelector key val st n = true ->
  attributeSubstringSelector key val st n = true.
Proof.
  intros [H | [H | H]]; revert H; apply attributeSelector_weaken;
    intros v Hv; apply Contains_true.
  - apply HasPrefix_true in Hv as (rest & ->). now exists ""%string, rest.
  - apply HasSuffix_true in Hv as (front & ->). exists front, ""%string.
    now rewrite append_empty_r.
  - apply includes_loop_pieces in Hv.
    apply (split_any_occurs separators).
    destruct (split_any_cons separators v) as (f & fs & Hs & _).
    rewrite Hs in *.
    destruct (exists_last (l := f :: fs) ltac:(discriminate)) as (l' & x & E).
    rewrite E in *. rewrite removelast_last, last_last in Hv.
    apply in_or_app. destruct Hv as [Hv | [_ Hv]]; [now left | right].
    now left.
Qed.

Lemma attributeSubstringSelector_weakest_witness :
  (attributePrefixSelector "class" "b" sample_doc 1%nat = true \/
   attributeSuffixSelector "class" "b" sample_doc 1%nat = true \/
   attributeIncludesSelector "class" "b" sample_doc 1%nat = true) /\
  attributeSubstringSelector "class" "b" sample_doc 1%nat = true.
Proof.
  assert (H : attributePrefixSelector "class" "b" sample_doc 1%nat = true \/
              attributeSuffixSelector "class" "b" sample_doc 1%nat = true \/
              attributeIncludesSelector "class" "b" sample_doc 1%nat = true).
  { right. right. reflexivity. }
  split; [exact H|].
  apply (attributeSubstringSelector_weakest "class" "b" sample_doc 1%nat H).
Defined.

Lemma drop_bytes_all (s : string) :
  drop_bytes (String.length s) s = EmptyString.
Proof. induction s as [|c s IH]; simpl; [reflexivity | exact IH]. Qed.

(** X17.  With the empty [val], the prefix, suffix and substring selectors
    match exactly the nodes that [attributeExistsSelector] matches. *)
Theorem attribute_empty_val key st n :
  attributePrefixSelector key "" st n = attributeExistsSelector key st n /\
  attributeSuffixSelector key "" st n = attributeExistsSelector key st n /\
  attributeSubstringSelector key "" st n = attributeExistsSelector key st n.
Proof.
  unfold attributePrefixSelector, attributeSuffixSelector,
    attributeSubstringSelector, attributeExistsSelector.
  repeat split; apply attributeSelector_ext; intros v.
  - apply HasPrefix_true. now exists v.
  - apply HasSuffix_true. exists v. symmetry. apply append_empty_r.
  - apply Contains_true. now exists ""%string, v.
Qed.

(** ** Positions *)

Lemma position_in_present n (l : list ptr) :
  In n l -> exists k, position_in n l = Some k.
Proof.
  induction l as [|c l IH]; simpl; [intros []|]. intros H.
  destruct (Nat.eqb c n) eqn:E; [now exists 1|].
  apply Nat.eqb_neq in E. destruct H as [H | H]; [contradiction|].
  destruct (IH H) as (k & ->). now exists (Z.succ k).
Qed.

Lemma counted_self st n ofType :
  Type_ (st n) = ElementNode -> counted st n ofType n = true.
Proof.
  intros He. unfold counted. rewrite He. simpl.
  destruct ofType; [apply String.eqb_refl | reflexivity].
Qed.

(** The position of a listed element, and what the selector tests on it. *)
Lemma nthChildSelector_listed st n parent last ofType :
  siblings_wf st n ->
  Type_ (st n) = ElementNode ->
  Parent (st n) = Some parent ->
  In n (Child (st parent)) ->
  exists i,
    position st n ofType parent = Some i /\
    1 <= i <= sibling_count st n ofType parent /\
    sibling_count st n ofType parent <= GoInt.max_int /\
    forall a b,
      nthChildSelector a b last ofType st n = true <->
      nth_rule a b
        (if last then sibling_count st n ofType parent - i + 1 else i).
Proof.
  intros Hwf He Hp Hin.
  assert (Hin' : In n (counted_children st n ofType parent)).
  { apply filter_In. split; [exact Hin | now apply counted_self]. }
  destruct (position_in_present _ _ Hin') as (i & Hi).
  exists i. split; [exact Hi|].
  split; [apply (position_in_bounds _ _ _ Hi)|].
  split.
  { destruct (Hwf parent Hp) as [Hlen _].
    pose proof (len_filter_le (counted st n ofType) (Child (st parent))).
    unfold sibling_count, counted_children. lia. }
  intros a b. rewrite (nthChildSelector_rule st n a b last ofType Hwf).
  unfold at_position. split.
  - intros (_ & p & j & Hp' & Hj & H).
    rewrite Hp in Hp'. injection Hp' as <-.
    unfold position in Hj. rewrite Hi in Hj. injection Hj as <-. exact H.
  - intros H. split; [exact He|]. exists parent, i. auto.
Qed.

Lemma onlyChildSelector_value st n parent ofType :
  Type_ (st n) = ElementNode ->
  Parent (st n) = Some parent ->
  onlyChildSelector ofType st n = (sibling_count st n ofType parent =? 1).
Proof.
  intros He Hp. unfold onlyChildSelector. rewrite He, Hp. simpl.
  rewrite onlyChild_loop_spec by lia. cbn zeta.
  unfold sibling_count, counted_children. rewrite Z.add_0_l.
  destruct (GoInt.len _ >? 1) eqn:E; [|reflexivity].
  symmetry. apply Z.eqb_neq. lia.
Qed.

Lemma nth_rule_zero (b i : Z) :
  GoInt.min_int < i - b <= GoInt.max_int ->
  nth_rule 0 b i <-> i = b.
Proof.
  intros Hr. unfold nth_rule. simpl.
  rewrite sub_in_range by (unfold GoInt.in_range; lia). lia.
Qed.

(** X18.  On a node that its parent lists, once, among its children,
    [onlyChildSelector ofType] matches exactly when both
    [nthChildSelector 0 1 false ofType] (first child) and
    [nthChildSelector 0 1 true ofType] (last child) match. *)
Theorem onlyChildSelector_first_and_last st n ofType :
  siblings_wf st n ->
  listed st n ->
  onlyChildSelector ofType st n =
  intersectionSelector (nthChildSelector 0 1 false ofType)
                       (nthChildSelector 0 1 true ofType) st n.
Proof.
  intros Hwf Hl. unfold intersectionSelector.
  destruct (NodeType_eqb (Type_ (st n)) ElementNode) eqn:He.
  2:{ unfold onlyChildSelector, nthChildSelector. rewrite He. reflexivity. }
  apply NodeType_eqb_eq in He.
  destruct (Parent (st n)) as [parent|] eqn:Hp.
  2:{ unfold onlyChildSelector, nthChildSelector.
      rewrite He, Hp. reflexivity. }
  rewrite (onlyChildSelector_value st n parent ofType He Hp).
  destruct (nthChildSelector_listed st n parent false ofType Hwf He Hp
              (Hl parent Hp)) as (i & Hi & Hb & Hmax & Hfirst).
  destruct (nthChildSelector_listed st n parent true ofType Hwf He Hp
              (Hl parent Hp)) as (i' & Hi' & _ & _ & Hlast).
  rewrite Hi in Hi'. injection Hi' as <-.
  apply eq_true_iff_eq.
  rewrite andb_true_iff, Hfirst, Hlast, Z.eqb_eq.
  unfold GoInt.max_int in Hmax.
  rewrite !nth_rule_zero by (unfold GoInt.min_int, GoInt.max_int; lia).
  lia.
Qed.

Lemma listed_sample (n : ptr) : listed sample_doc n.
Proof.
  intros parent.
  do 10 (destruct n as [|n]; [simpl; intros [= <-]; simpl; tauto|]).
  discriminate.
Qed.

Lemma onlyChildSelector_first_and_last_witness :
  siblings_wf sample_doc 8%nat /\
  listed sample_doc 8%nat /\
  onlyChildSelector false sample_doc 8%nat =
  intersectionSelector (nthChildSelector 0 1 false false)
                       (nthChildSelector 0 1 true false) sample_doc 8%nat.
Proof.
  split; [apply siblings_wf_sample|]. split; [apply listed_sample|].
  apply (onlyChildSelector_first_and_last sample_doc 8%nat false).
  - apply siblings_wf_sample.
  - apply listed_sample.
Defined.

(** X19.  On an element node that its parent lists, once, among its
    children, exactly one of [nthChildSelector 2 1] (odd) and
    [nthChildSelector 2 0] (even) matches, whatever [last] and [ofType]. *)
Theorem nthChildSelector_odd_even st n parent last ofType :
  siblings_wf st n ->
  Type_ (st n) = ElementNode ->
  Parent (st n) = Some parent ->
  In n (Child (st parent)) ->
  nthChildSelector 2 0 last ofType st n
  = negb (nthChildSelector 2 1 last ofType st n).
Proof.
  intros Hwf He Hp Hin.
  destruct (nthChildSelector_listed st n parent last ofType Hwf He Hp Hin)
    as (i & _ & Hb & Hmax & Hrule).
  set (j := if last then sibling_count st n ofType parent - i + 1 else i)
    in *.
  assert (Hj : 1 <= j <= GoInt.max_int) by (subst j; destruct last; lia).
  clearbody j. unfold GoInt.max_int in Hj.
  apply eq_true_iff_eq. rewrite negb_true_iff, <- not_true_iff_false.
  rewrite !Hrule. unfold nth_rule. simpl.
  rewrite !sub_in_range
    by (unfold GoInt.in_range, GoInt.min_int, GoInt.max_int; lia).
  unfold GoInt.rem, GoInt.quo.
  rewrite !wrap_in_range
    by (unfold GoInt.in_range, GoInt.min_int, GoInt.max_int;
        Z.to_euclidean_division_equations; lia).
  Z.to_euclidean_division_equations. lia.
Qed.

Lemma nthChildSelector_odd_even_witness :
  siblings_wf sample_doc 4%nat /\
  Type_ (sample_doc 4%nat) = ElementNode /\
  Parent (sample_doc 4%nat) = Some 0%nat /\
  In 4%nat (Child (sample_doc 0%nat)) /\
  nthChildSelector 2 0 true false sample_doc 4%nat
  = negb (nthChildSelector 2 1 true false sample_doc 4%nat).
Proof.
  assert (Hin : In 4%nat (Child (sample_doc 0%nat))) by (simpl; tauto).
  split; [apply siblings_wf_sample|]. split; [reflexivity|].
  split; [reflexivity|]. split; [exact Hin|].
  apply (nthChildSelector_odd_even sample_doc 4%nat 0%nat true false
           (siblings_wf_sample 4%nat) eq_refl eq_refl Hin).
Defined.

Lemma at_position_range st n last ofType (R R' : Z -> Prop) :
  (forall parent i',
     Parent (st n) = Some parent ->
     1 <= i' <= GoInt.len (Child (st parent)) -> (R i' <-> R' i')) ->
  at_position st n last ofType R <-> at_position st n last ofType R'.
Proof.
  intros Heq. unfold at_position.
  assert (Hb : forall parent i,
    Parent (st n) = Some parent -> position st n ofType parent = Some i ->
    1 <= (if last then sibling_count st n ofType parent - i + 1 else i)
      <= GoInt.len (Child (st parent))).
  { intros parent i Hp Hi.
    pose proof (position_in_bounds _ _ _ Hi) as Hb.
    pose proof (len_filter_le (counted st n ofType) (Child (st parent))).
    unfold sibling_count, counted_children in *. destruct last; lia. }
  split; intros (He & parent & i & Hp & Hi & H); split; auto;
    exists parent, i; repeat split; auto;
    now apply (Heq parent _ Hp (Hb parent i Hp Hi)).
Qed.

Lemma reachable_positive (a b i : Z) :
  0 < a -> reachable a b i <-> b <= i /\ (i - b) mod a = 0.
Proof.
  intros Ha. unfold reachable. split.
  - intros (k & Hk & ->). split; [nia|].
    replace (a * k + b - b) with (k * a) by lia. apply Z.mod_mul. lia.
  - intros [Hle Hmod]. exists ((i - b) / a). split.
    + apply Z.div_pos; lia.
    + apply Z.div_exact in Hmod; lia.
Qed.

Lemma reachable_negative (a b i : Z) :
  a < 0 -> reachable a b i <-> i <= b /\ (b - i) mod (- a) = 0.
Proof.
  intros Ha. unfold reachable. split.
  - intros (k & Hk & ->). split; [nia|].
    replace (b - (a * k + b)) with (k * - a) by lia. apply Z.mod_mul. lia.
  - intros [Hle Hmod]. exists ((b - i) / - a). split.
    + apply Z.div_pos; lia.
    + apply Z.div_exact in Hmod; lia.
Qed.

(** X20.  On a node that its parent lists at most once, with a positive
    step [a], and [b] such that [i - b] cannot overflow,
    [nthChildSelector a b last ofType] matches exactly when the node is an
    element whose position [i] (mirrored when [last]) is at least [b] and
    differs from [b] by a multiple of [a]. *)
Theorem nthChildSelector_positive_step st n (a b : Z) last ofType :
  siblings_wf st n ->
  offset_in_range st n b ->
  0 < a ->
  nthChildSelector a b last ofType st n = true <->
  at_position st n last ofType (fun i => b <= i /\ (i - b) mod a = 0).
Proof.
  intros Hwf Hoff Ha.
  rewrite (nthChildSelector_rule st n a b last ofType Hwf).
  apply at_position_range. intros parent i Hp Hi.
  specialize (Hoff parent Hp).
  rewrite nth_rule_reachable by (unfold GoInt.min_int, GoInt.max_int in *; lia).
  now apply reachable_positive.
Qed.

Lemma offset_in_range_sample (n : ptr) (b : Z) :
  -100 <= b <= 100 -> offset_in_range sample_doc n b.
Proof.
  intros Hb parent _. unfold GoInt.len, GoInt.min_int, GoInt.max_int.
  assert (Hlen : (List.length (Child (sample_doc parent)) <= 7)%nat).
  { do 10 (destruct parent as [|parent]; [simpl; lia|]). simpl. lia. }
  lia.
Qed.

Lemma nthChildSelector_positive_step_witness :
  siblings_wf sample_doc 5%nat /\
  offset_in_range sample_doc 5%nat 2 /\
  0 < 2 /\
  (nthChildSelector 2 2 false false sample_doc 5%nat = true <->
   at_position sample_doc 5%nat false false
     (fun i => 2 <= i /\ (i - 2) mod 2 = 0)).
Proof.
  split; [apply siblings_wf_sample|].
  split; [apply offset_in_range_sample; lia|]. split; [lia|].
  apply (nthChildSelector_positive_step sample_doc 5%nat 2 2 false false).
  - apply siblings_wf_sample.
  - apply offset_in_range_sample; lia.
  - lia.
Defined.

(** X21.  On a node that its parent lists at most once, with a negative
    step [a], and [b] such that [i - b] cannot overflow,
    [nthChildSelector a b last ofType] matches exactly when the node is an
    element whose position [i] (mirrored when [last]) is at most [b] and
    differs from [b] by a multiple of [a]; with [a = -1], the first [b]
    children. *)
Theorem nthChildSelector_negative_step st n (a b : Z) last ofType :
  siblings_wf st n ->
  offset_in_range st n b ->
  a < 0 ->
  nthChildSelector a b last ofType st n = true <->
  at_position st n last ofType (fun i => i <= b /\ (b - i) mod (- a) = 0).
Proof.
  intros Hwf Hoff Ha.
  rewrite (nthChildSelector_rule st n a b last ofType Hwf).
  apply at_position_range. intros parent i Hp Hi.
  specialize (Hoff parent Hp).
  rewrite nth_rule_reachable by (unfold GoInt.min_int, GoInt.max_int in *; lia).
  now apply reachable_negative.
Qed.

Lemma nthChildSelector_negative_step_witness :
  siblings_wf sample_doc 3%nat /\
  offset_in_range sample_doc 3%nat 3 /\
  -1 < 0 /\
  (nthChildSelector (-1) 3 false false sample_doc 3%nat = true <->
   at_position sample_doc 3%nat false false
     (fun i => i <= 3 /\ (3 - i) mod (- -1) = 0)).
Proof.
  split; [apply siblings_wf_sample|].
  split; [apply offset_in_range_sample; lia|]. split; [lia|].
  apply (nthChildSelector_negative_step sample_doc 3%nat (-1) 3 false false).
  - apply siblings_wf_sample.
  - apply offset_in_range_sample; lia.
  - lia.
Defined.

Lemma filter_length_impl {A : Type} (f g : A -> bool) (l : list A) :
  (forall x, f x = true -> g x = true) ->
  (List.length (filter f l) <= List.length (filter g l))%nat.
Proof.
  intros Hfg. induction l as [|x l IH]; simpl; [lia|].
  destruct (f x) eqn:Ef.
  - rewrite (Hfg x Ef). simpl. lia.
  - destruct (g x); simpl; lia.
Qed.

(** X22.  An only child is the only child of its type: on a node that its
    parent lists among its children, [onlyChildSelector false] matching
    implies [onlyChildSelector true] matching. *)
Theorem onlyChildSelector_of_type st n :
  listed st n ->
  onlyChildSelector false st n = true ->
  onlyChildSelector true st n = true.
Proof.
  intros Hl H.
  destruct (NodeType_eqb (Type_ (st n)) ElementNode) eqn:He.
  2:{ unfold onlyChildSelector in H. rewrite He in H. discriminate. }
  apply NodeType_eqb_eq in He.
  destruct (Parent (st n)) as [parent|] eqn:Hp.
  2:{ unfold onlyChildSelector in H. rewrite He, Hp in H. discriminate. }
  rewrite (onlyChildSelector_value st n parent false He Hp) in H.
  rewrite (onlyChildSelector_value st n parent true He Hp).
  apply Z.eqb_eq in H. apply Z.eqb_eq.
  unfold sibling_count, counted_children, GoInt.len in *.
  pose proof (filter_length_impl (counted st n true) (counted st n false)
                (Child (st parent))) as Hle.
  assert (Hin : In n (filter (counted st n true) (Child (st parent)))).
  { apply filter_In. split; [apply (Hl parent Hp) | now apply counted_self]. }
  destruct (filter (counted st n true) (Child (st parent))) as [|x l];
    [destruct Hin|].
  simpl List.length in *.
  assert (List.length (x :: l) <= List.length
            (filter (counted st n false) (Child (st parent))))%nat.
  { apply Hle. intros c Hc. unfold counted in *.
    apply andb_true_iff in Hc as [-> _]. reflexivity. }
  simpl List.length in *. lia.
Qed.

Lemma onlyChildSelector_of_type_witness :
  listed sample_doc 7%nat /\
  onlyChildSelector false sample_doc 7%nat = true /\
  onlyChildSelector true sample_doc 7%nat = true.
Proof.
  split; [apply listed_sample|]. split; [reflexivity|].
  apply (onlyChildSelector_of_type sample_doc 7%nat);
    [apply listed_sample | reflexivity].
Defined.

(** ** Results of the traversal *)

Lemma descendant_below st (n c m : ptr) :
  is_child st n c -> descendant st c m -> descendant st n m.
Proof.
  intros Hc H. induction H as [d Hd | d e _ IH He].
  - apply (descendant_step st n c d); [now apply descendant_child | exact Hd].
  - apply (descendant_step st n d e IH He).
Qed.

Lemma preorder_members st :
  (forall n l, preorder st n l ->
     forall m, In m l -> m = n \/ descendant st n m) /\
  (forall cs l, preorder_forest st cs l ->
     forall m, In m l -> exists c, In c cs /\ (m = c \/ descendant st c m)).
Proof.
  apply preorder_mutind.
  - intros n l _ IH m [<- | Hm]; [now left | right].
    destruct (IH m Hm) as (c & Hc & [-> | Hd]).
    + now apply descendant_child.
    + now apply (descendant_below st n c m).
  - intros m [].
  - intros c cs l1 l2 _ IH1 _ IH2 m Hm.
    apply in_app_or in Hm as [Hm | Hm].
    + exists c. split; [now left | apply (IH1 m Hm)].
    + destruct (IH2 m Hm) as (c' & Hc' & H). exists c'. split; [now right | exact H].
Qed.

Lemma preorder_nodes st n (l : list ptr) :
  preorder st n l -> forall m, In m l <-> m = n \/ descendant st n m.
Proof.
  intros Hpre m. split; [apply (proj1 (preorder_members st) n l Hpre)|].
  destruct (proj1 (preorder_closed st) n l Hpre) as [Hn Hcl].
  intros [-> | Hd]; [exact Hn|].
  apply (descendant_closed st l n m Hcl); [|exact Hd].
  intros c Hc. apply (Hcl n c Hn Hc).
Qed.

Lemma MatchAll_tree (s : Selector) st n (l : list ptr) :
  preorder st n l ->
  exists fuel0, forall fuel, (fuel0 <= fuel)%nat ->
    MatchAll fuel s st n = Some (filter (s st) l).
Proof. apply (proj1 (MatchAll_filter s st)). Qed.

(** X23.  On a finite tree rooted at [n], the result of [MatchAll s n]
    holds exactly the nodes among [n] and its descendants that [s]
    matches. *)
Theorem MatchAll_members (s : Selector) st n :
  is_tree st n ->
  exists fuel0 result,
    (forall fuel, (fuel0 <= fuel)%nat -> MatchAll fuel s st n = Some result) /\
    forall m, In m result <->
              (m = n \/ descendant st n m) /\ s st m = true.
Proof.
  intros (l & Hpre & _).
  destruct (MatchAll_tree s st n l Hpre) as (f0 & H).
  exists f0, (filter (s st) l). split; [exact H|].
  intros m. rewrite filter_In, (preorder_nodes st n l Hpre). reflexivity.
Qed.

Lemma MatchAll_members_witness :
  is_tree sample_doc 0%nat /\
  exists fuel0 result,
    (forall fuel, (fuel0 <= fuel)%nat ->
       MatchAll fuel (typeSelector "span") sample_doc 0%nat = Some result) /\
    forall m, In m result <->
              (m = 0%nat \/ descendant sample_doc 0%nat m) /\
              typeSelector "span" sample_doc m = true.
Proof.
  split; [apply sample_doc_tree|].
  apply (MatchAll_members (typeSelector "span") sample_doc 0%nat).
  apply sample_doc_tree.
Defined.

Lemma filter_andb {A : Type} (f g : A -> bool) (l : list A) :
  filter (fun x => f x && g x) l = filter g (filter f l).
Proof.
  induction l as [|x l IH]; simpl; [reflexivity|].
  destruct (f x); simpl; [destruct (g x); now rewrite IH | exact IH].
Qed.

(** X24.  On a finite tree, [MatchAll] with [intersectionSelector a b]
    returns the result of [MatchAll] with [a], in the same order, without
    the nodes that [b] does not match. *)
Theorem MatchAll_intersection (a b : Selector) st n :
  is_tree st n ->
  exists fuel0 result,
    forall fuel, (fuel0 <= fuel)%nat ->
      MatchAll fuel a st n = Some result /\
      MatchAll fuel (intersectionSelector a b) st n
      = Some (filter (b st) result).
Proof.
  intros (l & Hpre & _).
  destruct (MatchAll_tree a st n l Hpre) as (f1 & H1).
  destruct (MatchAll_tree (intersectionSelector a b) st n l Hpre)
    as (f2 & H2).
  exists (Nat.max f1 f2), (filter (a st) l). intros fuel Hf.
  split; [apply H1; lia|].
  rewrite H2 by lia. unfold intersectionSelector.
  now rewrite (filter_andb (a st) (b st)).
Qed.

Lemma MatchAll_intersection_witness :
  is_tree sample_doc 0%nat /\
  exists fuel0 result,
    forall fuel, (fuel0 <= fuel)%nat ->
      MatchAll fuel (typeSelector "span") sample_doc 0%nat = Some result /\
      MatchAll fuel
        (intersectionSelector (typeSelector "span")
           (attributeExistsSelector "lang")) sample_doc 0%nat
      = Some (filter (attributeExistsSelector "lang" sample_doc) result).
Proof.
  split; [apply sample_doc_tree|].
  apply (MatchAll_intersection (typeSelector "span")
           (attributeExistsSelector "lang") sample_doc 0%nat).
  apply sample_doc_tree.
Defined.

Lemma filter_negb_perm {A : Type} (f : A -> bool) (l : list A) :
  Permutation (filter f l ++ filter (fun x => negb (f x)) l) l.
Proof.
  induction l as [|x l IH]; simpl; [constructor|].
  destruct (f x); simpl.
  - now constructor.
  - apply Permutation_sym, Permutation_cons_app, Permutation_sym, IH.
Qed.

(** X25.  On a finite tree, the results of [MatchAll] with [s] and with
    [negatedSelector s] share no node, and together hold every node of
    the tree once. *)
Theorem MatchAll_negated (s : Selector) st n :
  is_tree st n ->
  exists fuel0 yes no nodes,
    preorder st n nodes /\ NoDup nodes /\
    (forall fuel, (fuel0 <= fuel)%nat ->
       MatchAll fuel s st n = Some yes /\
       MatchAll fuel (negatedSelector s) st n = Some no) /\
    Permutation (yes ++ no) nodes /\
    (forall m, ~ (In m yes /\ In m no)).
Proof.
  intros (l & Hpre & Hnd).
  destruct (MatchAll_tree s st n l Hpre) as (f1 & H1).
  destruct (MatchAll_tree (negatedSelector s) st n l Hpre) as (f2 & H2).
  exists (Nat.max f1 f2), (filter (s st) l),
    (filter (negatedSelector s st) l), l.
  split; [exact Hpre|]. split; [exact Hnd|].
  split; [intros fuel Hf; split; [apply H1 | apply H2]; lia|].
  split; [apply (filter_negb_perm (s st))|].
  intros m [Hy Hn]. apply filter_In in Hy as [_ Hy].
  apply filter_In in Hn as [_ Hn]. unfold negatedSelector in Hn.
  rewrite Hy in Hn. discriminate.
Qed.

Lemma MatchAll_negated_witness :
  is_tree sample_doc 0%nat /\
  exists fuel0 yes no nodes,
    preorder sample_doc 0%nat nodes /\ NoDup nodes /\
    (forall fuel, (fuel0 <= fuel)%nat ->
       MatchAll fuel (typeSelector "div") sample_doc 0%nat = Some yes /\
       MatchAll fuel (negatedSelector (typeSelector "div")) sample_doc 0%nat
       = Some no) /\
    Permutation (yes ++ no) nodes /\
    (forall m, ~ (In m yes /\ In m no)).
Proof.
  split; [apply sample_doc_tree|].
  apply (MatchAll_negated (typeSelector "div") sample_doc 0%nat).
  apply sample_doc_tree.
Defined.

Lemma MatchAll_step_none fuel (s : Selector) st (cs : list ptr) :
  fold_left (MatchAll_step fuel s st) cs None = None.
Proof. induction cs as [|c cs IH]; simpl; [reflexivity | exact IH]. Qed.

Lemma MatchAll_children_some fuel (s : Selector) st (cs : list ptr) :
  forall acc r,
    fold_left (MatchAll_step fuel s st) cs acc = Some r ->
    forall c, In c cs -> exists r', MatchAll fuel s st c = Some r'.
Proof.
  induction cs as [|x cs IH]; simpl; intros acc r H c; [intros []|].
  destruct acc as [acc|]; simpl in H;
    [|rewrite MatchAll_step_none in H; discriminate].
  destruct (MatchAll fuel s st x) as [rx|] eqn:Ex;
    [|rewrite MatchAll_step_none in H; discriminate].
  intros [<- | Hc]; [now exists rx | apply (IH _ _ H c Hc)].
Qed.

Lemma MatchAll_descendant (s : Selector) st n (d : ptr) :
  descendant st n d ->
  forall fuel r, MatchAll fuel s st n = Some r ->
    exists fuel' r', (fuel' < fuel)%nat /\ MatchAll fuel' s st d = Some r'.
Proof.
  induction 1 as [c Hc | c d _ IH Hd]; intros fuel r H.
  - destruct fuel as [|fuel]; [discriminate|].
    rewrite MatchAll_unfold in H.
    destruct (MatchAll_children_some fuel s st _ _ _ H c Hc) as (r' & Hr).
    exists fuel, r'. split; [lia | exact Hr].
  - destruct (IH fuel r H) as (f1 & r1 & Hlt & H1).
    destruct f1 as [|f1]; [discriminate|].
    rewrite MatchAll_unfold in H1.
    destruct (MatchAll_children_some f1 s st _ _ _ H1 d Hd) as (r' & Hr).
    exists f1, r'. split; [lia | exact Hr].
Qed.

(** X26.  [MatchAll] detects no cycle: from a node that is its own
    descendant the recursion never ends, whatever the depth allowed. *)
Theorem MatchAll_cycle (s : Selector) st n :
  descendant st n n ->
  forall fuel, MatchAll fuel s st n = None.
Proof.
  intros Hcyc fuel. induction fuel as [fuel IH] using lt_wf_ind.
  destruct (MatchAll fuel s st n) as [r|] eqn:E; [|reflexivity].
  destruct (MatchAll_descendant s st n n Hcyc fuel r E)
    as (fuel' & r' & Hlt & H').
  rewrite (IH fuel' Hlt) in H'. discriminate.
Qed.

Lemma MatchAll_cycle_witness :
  descendant cyclic_doc 0%nat 0%nat /\
  forall fuel, MatchAll fuel (typeSelector "a") cyclic_doc 0%nat = None.
Proof.
  assert (H : descendant cyclic_doc 0%nat 0%nat).
  { apply (descendant_step cyclic_doc 0%nat 1%nat 0%nat).
    - apply descendant_child. simpl. now left.
    - simpl. now left. }
  split; [exact H|].
  apply (MatchAll_cycle (typeSelector "a") cyclic_doc 0%nat H).
Defined.

(** ** Symmetry and uniqueness of positions *)

Lemma position_in_app n (l1 l2 : list ptr) :
  position_in n (l1 ++ l2) =
  match position_in n l1 with
  | Some k => Some k
  | None => option_map (fun k => GoInt.len l1 + k) (position_in n l2)
  end.
Proof.
  induction l1 as [|c l1 IH]; cbn [app position_in].
  - unfold GoInt.len. simpl. destruct (position_in n l2); reflexivity.
  - destruct (Nat.eqb c n); [reflexivity|]. rewrite IH, len_cons.
    destruct (position_in n l1); [reflexivity|].
    destruct (position_in n l2); cbn [option_map];
      [apply (f_equal Some); lia | reflexivity].
Qed.

Lemma position_in_rev n (l : list ptr) :
  (count_occ Nat.eq_dec l n <= 1)%nat ->
  position_in n (rev l) =
  option_map (fun k => GoInt.len l - k + 1) (position_in n l).
Proof.
  induction l as [|c l IH]; [reflexivity|]. intros Hocc.
  cbn [rev position_in]. rewrite position_in_app, len_cons.
  cbn [position_in].
  assert (Hrev : GoInt.len (rev l) = GoInt.len l)
    by (unfold GoInt.len; now rewrite length_rev).
  destruct (Nat.eq_dec c n) as [->|Hne].
  - rewrite Nat.eqb_refl. cbn [option_map].
    assert (Hnot : ~ In n l).
    { apply (count_occ_not_In Nat.eq_dec). simpl in Hocc.
      destruct (Nat.eq_dec n n); [lia | congruence]. }
    rewrite position_in_absent by (now rewrite <- in_rev).
    apply (f_equal Some). lia.
  - assert (Hocc' : (count_occ Nat.eq_dec l n <= 1)%nat).
    { simpl in Hocc. destruct (Nat.eq_dec c n); [contradiction | exact Hocc]. }
    destruct (Nat.eqb c n) eqn:E; [apply Nat.eqb_eq in E; contradiction|].
    rewrite (IH Hocc').
    destruct (position_in n l) as [k|]; cbn [option_map];
      [apply (f_equal Some); lia | reflexivity].
Qed.

Lemma count_occ_filter (f : ptr -> bool) n (l : list ptr) :
  (count_occ Nat.eq_dec (filter f l) n <= count_occ Nat.eq_dec l n)%nat.
Proof.
  induction l as [|c l IH]; simpl; [lia|].
  destruct (f c); simpl; destruct (Nat.eq_dec c n); lia.
Qed.

Lemma reverse_children_node st p (q : ptr) :
  Parent (reverse_children st p q) = Parent (st q) /\
  Type_ (reverse_children st p q) = Type_ (st q) /\
  Data (reverse_children st p q) = Data (st q) /\
  Attr (reverse_children st p q) = Attr (st q).
Proof. unfold reverse_children. destruct (Nat.eqb q p); auto. Qed.

Lemma reverse_children_counted st p n ofType (c : ptr) :
  counted (reverse_children st p) n ofType c = counted st n ofType c.
Proof.
  unfold counted.
  destruct (reverse_children_node st p c) as (_ & -> & -> & _).
  destruct (reverse_children_node st p n) as (_ & _ & -> & _).
  reflexivity.
Qed.

(** X27.  Counting from the end is counting from the start of the
    reversed list: on a node that its parent lists at most once,
    [nthChildSelector a b true ofType] returns what
    [nthChildSelector a b false ofType] returns once the children of the
    parent are put in the reverse order. *)
Theorem nthChildSelector_mirror st n parent (a b : Z) ofType :
  siblings_wf st n ->
  Parent (st n) = Some parent ->
  nthChildSelector a b true ofType st n =
  nthChildSelector a b false ofType (reverse_children st parent) n.
Proof.
  intros Hwf Hp. destruct (Hwf parent Hp) as [Hlen Hocc].
  unfold nthChildSelector.
  destruct (reverse_children_node st parent n) as (-> & -> & _ & _).
  destruct (negb (NodeType_eqb (Type_ (st n)) ElementNode)); [reflexivity|].
  rewrite Hp.
  assert (Hc : Child (reverse_children st parent parent)
               = rev (Child (st parent))).
  { unfold reverse_children. now rewrite Nat.eqb_refl. }
  rewrite Hc.
  rewrite (nthChild_loop_spec st n true ofType _ (-1) 0) by (auto; lia).
  rewrite (nthChild_loop_spec (reverse_children st parent) n false ofType
             _ (-1) 0)
    by (unfold GoInt.len in *; rewrite ?length_rev, ?count_occ_rev;
        auto; lia).
  cbn zeta.
  rewrite (filter_ext _ _ (reverse_children_counted st parent n ofType)).
  rewrite filter_rev.
  set (sibs := filter (counted st n ofType) (Child (st parent))).
  pose proof (len_filter_le (counted st n ofType) (Child (st parent))) as Hle.
  fold sibs in Hle.
  assert (Hocc' : (count_occ Nat.eq_dec sibs n <= 1)%nat).
  { pose proof (count_occ_filter (counted st n ofType) n (Child (st parent))).
    subst sibs. lia. }
  rewrite (position_in_rev n sibs Hocc').
  destruct (position_in n sibs) as [k|] eqn:Hk; simpl option_map; cbv iota.
  - pose proof (position_in_bounds _ _ _ Hk) as Hb.
    rewrite !Z.add_0_l.
    replace (k =? -1) with false by (symmetry; apply Z.eqb_neq; lia).
    replace (GoInt.len sibs - k + 1 =? -1) with false
      by (symmetry; apply Z.eqb_neq; lia).
    unfold nthChild_test.
    rewrite (sub_in_range (GoInt.len sibs) k),
      (add_in_range (GoInt.len sibs - k) 1);
      unfold GoInt.in_range, GoInt.min_int; unfold GoInt.max_int in *;
      try lia.
    reflexivity.
  - reflexivity.
Qed.

Lemma nthChildSelector_mirror_witness :
  siblings_wf sample_doc 4%nat /\
  Parent (sample_doc 4%nat) = Some 0%nat /\
  nthChildSelector 2 1 true false sample_doc 4%nat =
  nthChildSelector 2 1 false false (reverse_children sample_doc 0%nat) 4%nat.
Proof.
  split; [apply siblings_wf_sample|]. split; [reflexivity|].
  apply (nthChildSelector_mirror sample_doc 4%nat 0%nat 2 1 false
           (siblings_wf_sample 4%nat) eq_refl).
Defined.

(** X28.  Two keys that are equal up to the case of their ASCII letters
    give attribute selectors that agree on every node. *)
Theorem attributeSelector_case_insensitive (key key' : string)
    (f : string -> bool) st n :
  eq_ignoring_case key key' ->
  attributeSelector key f st n = attributeSelector key' f st n.
Proof.
  intros H. unfold attributeSelector. rewrite !toLowerASCII_map.
  unfold eq_ignoring_case in H. rewrite H. reflexivity.
Qed.

Lemma attributeSelector_case_insensitive_witness :
  eq_ignoring_case "Class" "CLASS" /\
  attributeSelector "Class" (fun v => String.eqb v "box") sample_doc 6%nat =
  attributeSelector "CLASS" (fun v => String.eqb v "box") sample_doc 6%nat.
Proof.
  split; [reflexivity|].
  apply (attributeSelector_case_insensitive "Class" "CLASS"
           (fun v => String.eqb v "box") sample_doc 6%nat).
  reflexivity.
Defined.

(** X29.  With [a = 0], [nthChildSelector 0 b last false] picks at most
    one child of a parent: two nodes of the same parent that both match
    are the same node. *)
Theorem nthChildSelector_single st n (m : ptr) parent (b : Z) last :
  siblings_wf st n ->
  siblings_wf st m ->
  Parent (st n) = Some parent ->
  Parent (st m) = Some parent ->
  nthChildSelector 0 b last false st n = true ->
  nthChildSelector 0 b last false st m = true ->
  n = m.
Proof.
  intros Hwn Hwm Hpn Hpm Hn Hm.
  apply (nthChildSelector_rule st n 0 b last false Hwn) in Hn.
  apply (nthChildSelector_rule st m 0 b last false Hwm) in Hm.
  destruct Hn as (_ & p & i & Hp & Hi & Hri).
  rewrite Hpn in Hp. injection Hp as <-.
  destruct Hm as (_ & p & j & Hp & Hj & Hrj).
  rewrite Hpm in Hp. injection Hp as <-.
  destruct (Hwn parent Hpn) as [Hlen _].
  unfold position, sibling_count in *.
  change (counted_children st m false parent)
    with (counted_children st n false parent) in *.
  set (sibs := counted_children st n false parent) in *.
  pose proof (position_in_bounds _ _ _ Hi) as Hbi.
  pose proof (position_in_bounds _ _ _ Hj) as Hbj.
  pose proof (len_filter_le (counted st n false) (Child (st parent))) as Hle.
  fold (counted_children st n false parent) in Hle. fold sibs in Hle.
  assert (Hij : i = j).
  { unfold nth_rule in Hri, Hrj. cbv zeta in Hri, Hrj.
    change (0 =? 0) with true in Hri, Hrj. cbv iota in Hri, Hrj.
    unfold GoInt.sub, GoInt.wrap in Hri, Hrj.
    unfold GoInt.max_int in Hlen.
    destruct last; Z.to_euclidean_division_equations; lia. }
  subst j. apply position_in_nth in Hi. apply position_in_nth in Hj.
  congruence.
Qed.

Lemma nthChildSelector_single_witness :
  siblings_wf sample_doc 4%nat /\
  siblings_wf sample_doc 4%nat /\
  Parent (sample_doc 4%nat) = Some 0%nat /\
  Parent (sample_doc 4%nat) = Some 0%nat /\
  nthChildSelector 0 3 false false sample_doc 4%nat = true /\
  nthChildSelector 0 3 false false sample_doc 4%nat = true /\
  4%nat = 4%nat.
Proof.
  split; [apply siblings_wf_sample|]. split; [apply siblings_wf_sample|].
  split; [reflexivity|]. split; [reflexivity|].
  split; [reflexivity|]. split; [reflexivity|].
  apply (nthChildSelector_single sample_doc 4%nat 4%nat 0%nat 3 false
           (siblings_wf_sample 4%nat) (siblings_wf_sample 4%nat)
           eq_refl eq_refl eq_refl eq_refl).
Defined.
